(** * simply-threading: a shallow embedding of [simply/threading.h]

    The header wraps the POSIX and the Windows threading calls behind one
    interface.  This development embeds the parts of it that carry a
    specification: the [Thread::id] comparison operators, the sleep helpers
    of [this_thread] with their input validation, the thread-name setter,
    the priority reader and the wide/narrow string helpers.  The operating
    system is an explicit state that the embedded functions read and to
    which they append the calls they make.  The life cycle of a [Thread]
    object, which the header leaves undeclared, is modelled last, as a
    store of objects over a world of threads of execution. *)

From Stdlib Require Import ZArith Lia Bool Ascii String.
From stdpp Require Import base option list gmap.

Local Open Scope Z_scope.

(** ** Platforms and integer types *)

(** The header selects one of two bodies with [#if SIMPLY_WINDOWS] and
    [#elif SIMPLY_LINUX]; the embedding takes the platform as an argument. *)
Inductive platform : Set :=
  | Windows
  | Linux.

(** The header is compiled either as C++17 or as C++20 and later
    ([SIMPLY_std20plus]). *)
Inductive cxx_standard : Set :=
  | Cxx17
  | Cxx20.

(** [std::numeric_limits<uint32_t>::max()], also the maximum of a [DWORD]. *)
Definition UINT32_MAX : Z := 4294967295.
Definition DWORD_MAX : Z := 4294967295.

(** [ms_type] is [uint32_t]. *)
Definition is_ms_type (ms : Z) : Prop := 0 <= ms <= UINT32_MAX.

(** [static_cast<ms_type>(ms)]: conversion to an unsigned 32-bit integer. *)
Definition static_cast_ms_type (ms : Z) : Z := ms mod 2 ^ 32.

(** The bounds of a signed 64-bit integer, the representation of
    [std::chrono::milliseconds] and of [intmax_t]. *)
Definition INT64_MIN : Z := -9223372036854775808.
Definition INT64_MAX : Z := 9223372036854775807.

Definition in_int64 (x : Z) : Prop := INT64_MIN <= x <= INT64_MAX.

(** The value a signed 64-bit computation is left with: the result itself
    when it fits, the result wrapped around when it overflows, as the
    compiled code does. *)
Definition wrap64 (x : Z) : Z := (x + 2 ^ 63) mod 2 ^ 64 - 2 ^ 63.

(** ** [Thread::id] *)

Module ThreadId.

(** [class id { native_id_type id_; }]: a [DWORD] on Windows and a
    [pthread_t] on Linux, both unsigned integers. *)
Record id : Set := mk_id { id_ : Z }.

(** [Thread::id::id() noexcept : id_(0) {}] *)
Definition default_id : id := mk_id 0.

(** [Thread::id::id(native_handle_type handle)]: on Linux the handle is
    the identifier, on Windows it is what [GetThreadId] answers for the
    handle. *)
Definition id_of_handle (GetThreadId : Z -> Z) (p : platform) (handle : Z) : id :=
  match p with
  | Windows => mk_id (GetThreadId handle)
  | Linux => mk_id handle
  end.

(** [operator==]: [lhs.id_ == rhs.id_] *)
Definition op_eq (lhs rhs : id) : bool := id_ lhs =? id_ rhs.

(** The pre-C++20 operators, each the native comparison of the fields. *)
Definition op_ne (lhs rhs : id) : bool := negb (id_ lhs =? id_ rhs).
Definition op_gt (lhs rhs : id) : bool := id_ lhs >? id_ rhs.
Definition op_lt (lhs rhs : id) : bool := id_ lhs <? id_ rhs.
Definition op_le (lhs rhs : id) : bool := id_ lhs <=? id_ rhs.
Definition op_ge (lhs rhs : id) : bool := id_ lhs >=? id_ rhs.

(** The result types that occur in the declarations of the comparison
    operators. *)
Inductive result_type : Set :=
  | bool_type
  | strong_ordering_type.

Definition result_type_eqb (x y : result_type) : bool :=
  match x, y with
  | bool_type, bool_type | strong_ordering_type, strong_ordering_type => true
  | _, _ => false
  end.

(** One comparison operator of the header: its name, the result type of
    its [friend] declaration in [class id] and the result type its
    definition is written with. *)
Record operator : Set := mk_operator {
  op_name : string;
  declared : result_type;
  defined : result_type
}.

(** [SIMPLY_std20plus] *)
Definition std20plus (s : cxx_standard) : bool :=
  match s with
  | Cxx17 => false
  | Cxx20 => true
  end.

(** The comparison operators the header declares and defines under a
    language standard: [operator==] always, [operator<=>] under
    [#if SIMPLY_std20plus] and the five relational operators under
    [#else].  In the class [operator<=>] is declared
    [friend std::strong_ordering operator<=>(id lhs, id rhs) noexcept;];
    its definition reads
    [bool operator<=>(Thread::id lhs, Thread::id rhs) noexcept]. *)
Definition operators (s : cxx_standard) : list operator :=
  mk_operator "operator==" bool_type bool_type
  :: (if std20plus s
      then [mk_operator "operator<=>" strong_ordering_type bool_type]
      else [mk_operator "operator!=" bool_type bool_type;
            mk_operator "operator<" bool_type bool_type;
            mk_operator "operator>" bool_type bool_type;
            mk_operator "operator<=" bool_type bool_type;
            mk_operator "operator>=" bool_type bool_type]).

(** A definition agrees with its declaration when the result types are
    the same; one that differs from it in the result type only makes the
    program ill-formed. *)
Definition agrees (o : operator) : bool :=
  result_type_eqb (declared o) (defined o).

(** The comparison operators of the header compile under a standard. *)
Definition well_formed (s : cxx_standard) : bool :=
  forallb agrees (operators s).

(** Exactly one of three booleans is set. *)
Definition exactly_one (x y z : bool) : bool :=
  match x, y, z with
  | true, false, false | false, true, false | false, false, true => true
  | _, _, _ => false
  end.

End ThreadId.

(** ** Errors and the operating system *)

Module OS.

(** [std::errc] values the header raises. *)
Inductive errc : Set :=
  | invalid_argument.

(** [std::error_code]: a generic condition made by [std::make_error_code],
    or a native code in [std::system_category()]. *)
Inductive error_code : Set :=
  | generic_category (e : errc)
  | system_category (code : Z).

(** [std::system_error(code, what)]. *)
Record system_error : Set := mk_system_error {
  code : error_code;
  what : string
}.

(** The calls that reach the operating system, with their arguments.  A
    [const char*] argument is recorded as the bytes of the string object
    whose [c_str()] was passed. *)
Inductive os_call : Set :=
  | Sleep (dwMilliseconds : Z)
  | nanosleep (tv_sec tv_nsec : Z)
  | pthread_setname_np (name : list ascii)
  | pthread_getname_np
  | GetThreadPriority
  | GetLastError.

(** What the calling thread can observe of the operating system: its
    name, what [GetThreadPriority] and [GetLastError] answer, and the
    calls made so far (oldest first). *)
Record os_state : Set := mk_os_state {
  thread_name : list ascii;
  thread_priority : Z;
  last_error : Z;
  calls : list os_call
}.

(** The C string a [const char*] denotes: the bytes before the first
    NUL. *)
Fixpoint c_str (s : list ascii) : list ascii :=
  match s with
  | [] => []
  | c :: s' => if Ascii.eqb c Ascii.zero then [] else c :: c_str s'
  end.

Definition log (c : os_call) (st : os_state) : os_state :=
  mk_os_state (thread_name st) (thread_priority st) (last_error st)
              (calls st ++ [c]).

(** [pthread_setname_np] renames the thread when the C string has at most
    15 characters and fails with [ERANGE], changing nothing, otherwise. *)
Definition rename (name : list ascii) (st : os_state) : os_state :=
  if (length (c_str name) <=? 15)%nat
  then mk_os_state (c_str name) (thread_priority st) (last_error st) (calls st)
  else st.

(** Computations that may throw and that act on the operating system. *)
Inductive result (A : Type) : Type :=
  | Ok (a : A)
  | Throw (e : system_error).
Arguments Ok {A} a.
Arguments Throw {A} e.

Definition M (A : Type) : Type := os_state -> result A * os_state.

Definition ret {A} (a : A) : M A := fun st => (Ok a, st).

Definition bind {A B} (m : M A) (k : A -> M B) : M B :=
  fun st =>
    match m st with
    | (Ok a, st') => k a st'
    | (Throw e, st') => (Throw e, st')
    end.

Definition throw {A} (e : system_error) : M A := fun st => (Throw e, st).

(** One call into the operating system: it is logged, then takes
    effect and answers. *)
Definition call_Sleep (ms : Z) : M unit :=
  fun st => (Ok tt, log (Sleep ms) st).
Definition call_nanosleep (tv_sec tv_nsec : Z) : M unit :=
  fun st => (Ok tt, log (nanosleep tv_sec tv_nsec) st).
Definition call_pthread_setname_np (name : list ascii) : M unit :=
  fun st => (Ok tt, rename name (log (pthread_setname_np name) st)).
Definition call_pthread_getname_np : M (list ascii) :=
  fun st => (Ok (thread_name st), log pthread_getname_np st).
Definition call_GetThreadPriority : M Z :=
  fun st => (Ok (thread_priority st), log GetThreadPriority st).
Definition call_GetLastError : M Z :=
  fun st => (Ok (last_error st), log GetLastError st).

(** The time a [timespec] stands for, in nanoseconds. *)
Definition timespec_ns (tv_sec tv_nsec : Z) : Z := tv_sec * 1000000000 + tv_nsec.

(** The result of a computation is the exception [invalid_argument]. *)
Definition throws_invalid_argument {A} (r : result A) : Prop :=
  exists msg, r = Throw (mk_system_error (generic_category invalid_argument) msg).

Definition throws {A} (r : result A) : Prop :=
  exists e, r = Throw e.

End OS.

Declare Scope os_scope.
Delimit Scope os_scope with os.
Notation "x <- m ;; k" := (OS.bind m (fun x => k))
  (at level 100, m at next level, right associativity) : os_scope.
Notation "m ;;; k" := (OS.bind m (fun _ => k))
  (at level 100, right associativity) : os_scope.

(** ** [std::chrono] durations *)

Module Chrono.

(** [std::ratio<Num, Denom>] with both parts positive. *)
Record ratio : Set := mk_ratio { num : positive; den : positive }.

Definition milli : ratio := mk_ratio 1 1000.
Definition unit_ratio : ratio := mk_ratio 1 1.

(** [std::chrono::duration<Rep, Period>] for an integer [Rep]: a tick
    count and the length of a tick in seconds. *)
Record duration : Set := mk_duration { count : Z; period : ratio }.

Definition milliseconds (n : Z) : duration := mk_duration n milli.
Definition seconds (n : Z) : duration := mk_duration n unit_ratio.

(** [std::chrono::duration_cast<std::chrono::milliseconds>(d).count()]:
    the count is scaled by the ratio of the two periods, reduced to lowest
    terms, and the integer division truncates towards zero.  The product
    is computed in a signed 64-bit integer and wraps around when it
    overflows. *)
Definition duration_cast_ms (d : duration) : Z :=
  let n := Z.pos (num (period d)) * 1000 in
  let m := Z.pos (den (period d)) in
  let g := Z.gcd n m in
  Z.quot (wrap64 (count d * (n / g))) (m / g).

(** [std::common_type] of two periods: gcd of the numerators over lcm of
    the denominators. *)
Definition common_period (p q : ratio) : ratio :=
  mk_ratio (Z.to_pos (Z.gcd (Z.pos (num p)) (Z.pos (num q))))
           (Z.to_pos (Z.lcm (Z.pos (den p)) (Z.pos (den q)))).

(** Conversion of a duration to a period that divides its own, as the
    implicit conversion to the common type does: the count times the
    whole number of new ticks in an old one, in a signed 64-bit integer. *)
Definition to_period (r : ratio) (d : duration) : duration :=
  mk_duration
    (wrap64 (count d * ((Z.pos (num (period d)) * Z.pos (den r))
                        / (Z.pos (num r) * Z.pos (den (period d))))))
    r.

(** [operator-] on two durations: the difference of the counts in the
    common type, in a signed 64-bit integer. *)
Definition sub (a b : duration) : duration :=
  let r := common_period (period a) (period b) in
  mk_duration (wrap64 (count (to_period r a) - count (to_period r b))) r.

(** [std::chrono::time_point<Clock, Duration>]. *)
Record time_point : Set := mk_time_point { time_since_epoch : duration }.

(** [operator-] on two time points of one clock. *)
Definition time_point_sub (a b : time_point) : duration :=
  sub (time_since_epoch a) (time_since_epoch b).

(** A clock: [Clock::now()] reads the operating system. *)
Record Clock : Type := mk_Clock { now : OS.os_state -> time_point }.

End Chrono.

(** ** [Thread::max_sleep] and the [this_thread] namespace *)

Module Thread.

(** [Thread::max_sleep()]:
    [std::numeric_limits<DWORD>::max() - 1] on Windows and
    [std::numeric_limits<uint32_t>::max()] on Linux. *)
Definition max_sleep (p : platform) : Z :=
  match p with
  | Windows => DWORD_MAX - 1
  | Linux => UINT32_MAX
  end.

(** [enum Priority], Windows only. *)
Inductive Priority : Set :=
  | IDLE
  | LOWEST
  | LOW
  | NORMAL
  | HIGH
  | HIGHEST
  | TIME_CRITICAL.

End Thread.

(** The [THREAD_PRIORITY_*] macros come from [<windows.h>], which is not
    part of the repository: they are parameters of the embedding. *)
Record priority_macros : Set := mk_priority_macros {
  THREAD_PRIORITY_ERROR_RETURN : Z;
  THREAD_PRIORITY_IDLE : Z;
  THREAD_PRIORITY_LOWEST : Z;
  THREAD_PRIORITY_BELOW_NORMAL : Z;
  THREAD_PRIORITY_NORMAL : Z;
  THREAD_PRIORITY_ABOVE_NORMAL : Z;
  THREAD_PRIORITY_HIGHEST : Z;
  THREAD_PRIORITY_TIME_CRITICAL : Z
}.

(** The values the Windows SDK gives the macros. *)
Definition winbase : priority_macros :=
  mk_priority_macros 2147483647 (-15) (-2) (-1) 0 1 2 15.

(** The value of each enumerator of [Thread::Priority]. *)
Definition priority_value (W : priority_macros) (p : Thread.Priority) : Z :=
  match p with
  | Thread.IDLE => THREAD_PRIORITY_IDLE W
  | Thread.LOWEST => THREAD_PRIORITY_LOWEST W
  | Thread.LOW => THREAD_PRIORITY_BELOW_NORMAL W
  | Thread.NORMAL => THREAD_PRIORITY_NORMAL W
  | Thread.HIGH => THREAD_PRIORITY_ABOVE_NORMAL W
  | Thread.HIGHEST => THREAD_PRIORITY_HIGHEST W
  | Thread.TIME_CRITICAL => THREAD_PRIORITY_TIME_CRITICAL W
  end.

(** The multibyte and wide encodings of the current locale, as the C
    library sees them, one character at a time.  [mbtowc s] decodes the
    character at the front of the non-empty byte string [s] and tells how
    many bytes beyond the first it takes; [wctomb w] encodes one wide
    character.  [None] is the library's error return.  As the C standard
    requires of every locale, only the NUL byte decodes to the null wide
    character. *)
Record locale : Type := mk_locale {
  mbtowc : list ascii -> option (Z * nat);
  wctomb : Z -> option (list ascii);
  mbtowc_null : forall c s k, mbtowc (c :: s) = Some (0, k) -> c = Ascii.zero
}.

Module this_thread.
Import OS.
Local Open Scope os_scope.

Definition invalid (msg : string) : system_error :=
  mk_system_error (generic_category invalid_argument) msg.

(** [void this_thread::sleep(ms_type ms_sleep)], both bodies. *)
Definition sleep (p : platform) (ms_sleep : Z) : M unit :=
  match p with
  | Windows =>
      if ms_sleep >? DWORD_MAX
      then throw (invalid "this_thread::sleep: Windows implementation does not permit 0xFFFFFFFF!")
      else call_Sleep ms_sleep
  | Linux =>
      if ms_sleep >? Thread.max_sleep Linux
      then throw (invalid "this_thread::sleep: Too long a period to sleep for!")
      else
        let tv_nsec := (ms_sleep mod 1000000) * 1000 in
        let tv_sec := ms_sleep / 1000 in
        call_nanosleep tv_sec tv_nsec
  end.

(** [this_thread::sleep_for(rel_time)] *)
Definition sleep_for (p : platform) (rel_time : Chrono.duration) : M unit :=
  let ms := Chrono.duration_cast_ms rel_time in
  if (ms <? 0) || (ms >? UINT32_MAX)
  then throw (invalid "this_thread::sleep_for: Value was negative or too large!")
  else sleep p (static_cast_ms_type ms).

(** [this_thread::sleep_until(abs_time)] *)
Definition sleep_until (p : platform) (C : Chrono.Clock)
    (abs_time : Chrono.time_point) : M unit :=
  fun st => sleep_for p (Chrono.time_point_sub abs_time (Chrono.now C st)) st.

(** [this_thread::set_name(name)], the Linux body. *)
Definition set_name (name : list ascii) : M unit :=
  if (15 <? length name)%nat
  then throw (invalid "this_thread::set_name: Linux only supports 15 chars followed by NULL for name")
  else call_pthread_setname_np name.

(** [this_thread::get_name()], the Linux body. *)
Definition get_name : M (list ascii) :=
  name <- call_pthread_getname_np ;; ret name.

(** [this_thread::get_priority()], Windows only.  The [switch] tests its
    labels in the order written. *)
Definition get_priority (W : priority_macros) : M Thread.Priority :=
  p <- call_GetThreadPriority ;;
  if p =? THREAD_PRIORITY_ERROR_RETURN W then
    e <- call_GetLastError ;;
    throw (mk_system_error (system_category e) EmptyString)
  else if p =? THREAD_PRIORITY_IDLE W then ret Thread.IDLE
  else if p =? THREAD_PRIORITY_LOWEST W then ret Thread.LOWEST
  else if p =? THREAD_PRIORITY_BELOW_NORMAL W then ret Thread.LOW
  else if p =? THREAD_PRIORITY_NORMAL W then ret Thread.NORMAL
  else if p =? THREAD_PRIORITY_ABOVE_NORMAL W then ret Thread.HIGH
  else if p =? THREAD_PRIORITY_HIGHEST W then ret Thread.HIGHEST
  else if p =? THREAD_PRIORITY_TIME_CRITICAL W then ret Thread.TIME_CRITICAL
  else if p <? 0 then ret Thread.IDLE
  else ret Thread.TIME_CRITICAL.

(** What the [switch] of [get_priority] selects for a native value,
    [None] standing for the exception. *)
Definition select (W : priority_macros) (p : Z) : option Thread.Priority :=
  if p =? THREAD_PRIORITY_ERROR_RETURN W then None
  else if p =? THREAD_PRIORITY_IDLE W then Some Thread.IDLE
  else if p =? THREAD_PRIORITY_LOWEST W then Some Thread.LOWEST
  else if p =? THREAD_PRIORITY_BELOW_NORMAL W then Some Thread.LOW
  else if p =? THREAD_PRIORITY_NORMAL W then Some Thread.NORMAL
  else if p =? THREAD_PRIORITY_ABOVE_NORMAL W then Some Thread.HIGH
  else if p =? THREAD_PRIORITY_HIGHEST W then Some Thread.HIGHEST
  else if p =? THREAD_PRIORITY_TIME_CRITICAL W then Some Thread.TIME_CRITICAL
  else if p <? 0 then Some Thread.IDLE
  else Some Thread.TIME_CRITICAL.

(** *** Wide and narrow strings (Windows only) *)

(** The wide characters a multibyte C string converts to, as [mbstowcs]
    produces them: one [mbtowc] per character, [skip] counting the
    bytes of the current character still to pass over.  The conversion
    stops at a null wide character and fails on an invalid or truncated
    sequence. *)
Fixpoint mbs_decode (L : locale) (skip : nat) (s : list ascii) : option (list Z) :=
  match s with
  | [] => match skip with O => Some [] | S _ => None end
  | _ :: s' =>
      match skip with
      | S k => mbs_decode L k s'
      | O =>
          match mbtowc L s with
          | None => None
          | Some (w, k) =>
              if w =? 0 then Some []
              else match mbs_decode L k s' with
                   | None => None
                   | Some ws => Some (w :: ws)
                   end
          end
      end
  end.

(** The bytes a wide C string converts to, as [wcstombs] produces them:
    one [wctomb] per wide character up to the terminator. *)
Fixpoint wcs_encode (L : locale) (ws : list Z) : option (list ascii) :=
  match ws with
  | [] => Some []
  | w :: ws' =>
      if w =? 0 then Some []
      else match wctomb L w with
           | None => None
           | Some bs =>
               match wcs_encode L ws' with
               | None => None
               | Some rest => Some (bs ++ rest)
               end
           end
  end.

(** [std::mbstowcs(nullptr, s, 0)]: the number of wide characters, or
    [(size_t)-1], here [None]. *)
Definition mbstowcs_count (L : locale) (s : list ascii) : option nat :=
  match mbs_decode L 0 s with
  | None => None
  | Some ws => Some (length ws)
  end.

(** [std::mbstowcs(buffer, s, len)]: what it writes, at most [len] wide
    characters, the terminator among them when it fits. *)
Definition mbstowcs_write (L : locale) (s : list ascii) (len : nat) : list Z :=
  match mbs_decode L 0 s with
  | None => []
  | Some ws => take len (ws ++ [0])
  end.

(** [std::wcstombs(nullptr, ws, 0)] *)
Definition wcstombs_count (L : locale) (ws : list Z) : option nat :=
  match wcs_encode L ws with
  | None => None
  | Some bs => Some (length bs)
  end.

(** [std::wcstombs(buffer, ws, len)]: whole characters as long as they
    fit into the [len] bytes left, then the terminator when it fits. *)
Fixpoint wcstombs_write (L : locale) (ws : list Z) (len : nat) : list ascii :=
  match ws with
  | [] => match len with O => [] | S _ => [Ascii.zero] end
  | w :: ws' =>
      if w =? 0 then match len with O => [] | S _ => [Ascii.zero] end
      else match wctomb L w with
           | None => []
           | Some bs =>
               if (length bs <=? len)%nat
               then bs ++ wcstombs_write L ws' (len - length bs)
               else []
           end
  end.

(** [r + 1] on a [size_t] result: [(size_t)-1 + 1] wraps to [0]. *)
Definition plus_one (r : option nat) : nat :=
  match r with
  | None => O
  | Some n => S n
  end.

(** [std::wstring wname(buffer)] on what was written to a fresh buffer:
    the wide characters before the first null one.  Reading past what
    was written is undefined, here [None]. *)
Fixpoint wstring_of (buffer : list Z) : option (list Z) :=
  match buffer with
  | [] => None
  | w :: b =>
      if w =? 0 then Some []
      else match wstring_of b with
           | None => None
           | Some ws => Some (w :: ws)
           end
  end.

(** [std::string name(buffer)], likewise. *)
Fixpoint string_of (buffer : list ascii) : option (list ascii) :=
  match buffer with
  | [] => None
  | c :: b =>
      if Ascii.eqb c Ascii.zero then Some []
      else match string_of b with
           | None => None
           | Some cs => Some (c :: cs)
           end
  end.

(** [this_thread::to_wide(name)] *)
Definition to_wide (L : locale) (name : list ascii) : option (list Z) :=
  let len := plus_one (mbstowcs_count L (c_str name)) in
  let buffer := mbstowcs_write L (c_str name) len in
  wstring_of buffer.

(** [this_thread::from_wide(wname)]; [wname.c_str()] ends at the first
    null wide character, where [wcs_encode] stops. *)
Definition from_wide (L : locale) (wname : list Z) : option (list ascii) :=
  let len := plus_one (wcstombs_count L wname) in
  let buffer := wcstombs_write L wname len in
  string_of buffer.

(** [from_wide(to_wide(name))] *)
Definition round_trip (L : locale) (name : list ascii) : option (list ascii) :=
  match to_wide L name with
  | None => None
  | Some wname => from_wide L wname
  end.

(** Every character of [name] is representable in both encodings of the
    locale: it decodes to a wide character that encodes back to the
    bytes it was read from. *)
Fixpoint representable_from (L : locale) (skip : nat) (name : list ascii) : bool :=
  match name with
  | [] => match skip with O => true | S _ => false end
  | _ :: name' =>
      match skip with
      | S k => representable_from L k name'
      | O =>
          match mbtowc L name with
          | None => false
          | Some (w, k) =>
              match wctomb L w with
              | None => false
              | Some bs =>
                  bool_decide (bs = take (S k) name)
                  && representable_from L k name'
              end
          end
      end
  end.

Definition representable (L : locale) (name : list ascii) : Prop :=
  representable_from L 0 name = true.

End this_thread.

(** The ["C"] locale on the portable character set: one byte below 128 is
    one wide character of the same value. *)
Definition C_mbtowc (s : list ascii) : option (Z * nat) :=
  match s with
  | [] => None
  | c :: _ =>
      let v := Z.of_N (N_of_ascii c) in
      if v <? 128 then Some (v, O) else None
  end.

Definition C_wctomb (w : Z) : option (list ascii) :=
  if (0 <=? w) && (w <? 128) then Some [ascii_of_N (Z.to_N w)] else None.

Lemma C_mbtowc_null c s k : C_mbtowc (c :: s) = Some (0, k) -> c = Ascii.zero.
Proof.
  unfold C_mbtowc. destruct (Z.of_N (N_of_ascii c) <? 128); [|discriminate].
  intros [= H _]. rewrite <- (ascii_N_embedding c).
  replace (N_of_ascii c) with 0%N by lia. reflexivity.
Qed.

Definition C_locale : locale := mk_locale C_mbtowc C_wctomb C_mbtowc_null.

(** ** The life cycle of a [Thread] object *)

(** Modelled from the spec: the header documented here declares of
    [class Thread] only [max_sleep], [Priority] and [id]; its constructors,
    destructor, move operations, [joinable], [join], [detach], [swap],
    [get_id] and the stop-token members are missing and are known from the
    specification (a move-only handle that joins on destruction, with
    optional cooperative stop signalling), from the project's description
    (the destructor calls [join] if [joinable] instead of terminating the
    program; a stop-aware callable runs until [request_stop] or [join]) and
    from the tests [Thread.Null], [Thread.Move] and [Thread.StopToken].

    Threads of execution live in a world shared by all [Thread] objects and
    advance one step at a time under a scheduler; an operation that has to
    wait for a thread of execution answers [Blocked] and is tried again
    after that thread has run. *)
Module Lifecycle.

(** The callables the tests and the description start threads with: one
    that returns after some more work and takes no stop token, the
    cooperative loop [while (!token.stop_requested()) sleep(10);], and a
    loop that never returns. *)
Inductive callable : Set :=
  | Returns (work : nat)
  | Cooperative
  | Spin.

Inductive progress : Set :=
  | Running (f : callable)
  | Completed.

(** A thread of execution with the stop state its tokens observe. *)
Record execution : Set := mk_execution {
  state : progress;
  stop_flag : bool
}.

(** Modelled from the spec: the data members of [class Thread], which the
    header does not declare.  A [Thread] object holds the native handle of
    the thread of execution it owns, if any, and the stop state its
    [stop_source] refers to. *)
Record Thread : Set := mk_Thread {
  handle : option Z;
  ssource : option Z
}.

(** A default-constructed or moved-from object. *)
Definition empty_Thread : Thread := mk_Thread None None.

Record world : Type := mk_world {
  threads : gmap Z execution;
  objects : gmap nat Thread;
  next_handle : Z
}.

Inductive outcome : Type :=
  | Done (w : world)
  | Blocked (h : Z) (w : world)
  | Raised (e : OS.system_error)
  | Terminated
  | NoObject.

(** *** Threads of execution *)

Definition step_callable (stop : bool) (f : callable) : progress :=
  match f with
  | Returns O => Completed
  | Returns (S n) => Running (Returns n)
  | Cooperative => if stop then Completed else Running Cooperative
  | Spin => Running Spin
  end.

Definition step_execution (e : execution) : execution :=
  match state e with
  | Running f => mk_execution (step_callable (stop_flag e) f) (stop_flag e)
  | Completed => e
  end.

(** The scheduler lets the thread of execution [h] take one step. *)
Definition run (h : Z) (w : world) : world :=
  mk_world (alter step_execution h (threads w)) (objects w) (next_handle w).

Definition completed (h : Z) (w : world) : bool :=
  match threads w !! h with
  | Some e => match state e with Completed => true | Running _ => false end
  | None => false
  end.

(** *** Observers *)

(** Modelled from the spec: [joinable()], missing from the header; an
    object is joinable while it owns a thread of execution. *)
Definition joinable (t : Thread) : bool :=
  match handle t with
  | Some _ => true
  | None => false
  end.

(** Modelled from the spec: [Thread::get_id()], missing from the header;
    the id made from the handle, the default id without one (tests
    [Thread.Null] and [Thread.Move]). *)
Definition get_id (GetThreadId : Z -> Z) (p : platform) (t : Thread) : ThreadId.id :=
  match handle t with
  | Some h => ThreadId.id_of_handle GetThreadId p h
  | None => ThreadId.default_id
  end.

(** Modelled from the spec: [get_stop_source()] and [get_stop_token()],
    missing from the header; they hand out references to the stop
    state. *)
Definition get_stop_source (t : Thread) : option Z := ssource t.
Definition get_stop_token (t : Thread) : option Z := ssource t.

(** [token.stop_requested()] *)
Definition stop_requested (token : option Z) (w : world) : bool :=
  match token with
  | Some h =>
      match threads w !! h with
      | Some e => stop_flag e
      | None => false
      end
  | None => false
  end.

(** *** Stop requests *)

Definition set_stop (e : execution) : execution := mk_execution (state e) true.

(** Modelled from the spec: [source.request_stop()] on a stop source
    obtained from a [Thread]. *)
Definition source_request_stop (source : option Z) (w : world) : world :=
  match source with
  | Some h => mk_world (alter set_stop h (threads w)) (objects w) (next_handle w)
  | None => w
  end.

(** Modelled from the spec: [Thread::request_stop()], missing from the
    header, on the object named [o]. *)
Definition request_stop (o : nat) (w : world) : outcome :=
  match objects w !! o with
  | Some t => Done (source_request_stop (ssource t) w)
  | None => NoObject
  end.

(** *** Construction *)

Definition set_object (o : nat) (t : Thread) (w : world) : world :=
  mk_world (threads w) (<[o := t]> (objects w)) (next_handle w).

Definition drop_object (o : nat) (w : world) : world :=
  mk_world (threads w) (delete o (objects w)) (next_handle w).

(** Modelled from the spec: the default constructor, [Thread o;], missing
    from the header (test [Thread.Null]). *)
Definition default_construct (o : nat) (w : world) : outcome :=
  match objects w !! o with
  | Some _ => NoObject
  | None => Done (set_object o empty_Thread w)
  end.

(** Modelled from the spec: the constructor from a callable,
    [Thread o(f);], missing from the header; it starts a thread of
    execution under a fresh handle. *)
Definition construct (o : nat) (f : callable) (w : world) : outcome :=
  match objects w !! o with
  | Some _ => NoObject
  | None =>
      let h := next_handle w in
      Done (mk_world (<[h := mk_execution (Running f) false]> (threads w))
                     (<[o := mk_Thread (Some h) (Some h)]> (objects w))
                     (h + 1))
  end.

(** *** Joining, detaching, destruction *)

Definition not_joinable : OS.system_error :=
  OS.mk_system_error (OS.generic_category OS.invalid_argument)
                     "Thread: not joinable".

(** Modelled from the spec: [Thread::join()], missing from the header.
    It throws on an object that is not joinable (test [Thread.Null]);
    otherwise it requests a stop (test [Thread.StopToken] joins a thread
    that loops until asked to stop), waits for the thread of execution to
    complete and gives the handle up. *)
Definition join (o : nat) (w : world) : outcome :=
  match objects w !! o with
  | None => NoObject
  | Some t =>
      match handle t with
      | None => Raised not_joinable
      | Some h =>
          let w1 := source_request_stop (ssource t) w in
          if completed h w1
          then Done (set_object o (mk_Thread None (ssource t)) w1)
          else Blocked h w1
      end
  end.

(** Modelled from the spec: [Thread::detach()], missing from the header
    (test [Thread.Null]). *)
Definition detach (o : nat) (w : world) : outcome :=
  match objects w !! o with
  | None => NoObject
  | Some t =>
      match handle t with
      | None => Raised not_joinable
      | Some _ => Done (set_object o (mk_Thread None (ssource t)) w)
      end
  end.

(** An operation followed, once it is done, by a change of the world. *)
Definition and_then (op : world -> outcome) (g : world -> world) (w : world) : outcome :=
  match op w with
  | Done w' => Done (g w')
  | r => r
  end.

(** Modelled from the spec: the destructor [~Thread()], missing from the
    header; it joins when joinable, then the object is gone. *)
Definition destroy (o : nat) (w : world) : outcome :=
  match objects w !! o with
  | None => NoObject
  | Some t =>
      if joinable t
      then and_then (join o) (drop_object o) w
      else Done (drop_object o w)
  end.

(** [std::thread::~thread()], for comparison: a joinable object
    terminates the program. *)
Definition std_thread_destroy (o : nat) (w : world) : outcome :=
  match objects w !! o with
  | None => NoObject
  | Some t => if joinable t then Terminated else Done (drop_object o w)
  end.

(** *** Moves *)

(** What a move leaves behind: the target takes over the state of the
    source, the source is left empty. *)
Definition transfer (dst src : nat) (ts : Thread) (w : world) : world :=
  set_object dst ts (set_object src empty_Thread w).

(** Modelled from the spec: the move constructor,
    [Thread dst(std::move(src));], missing from the header (test
    [Thread.Move]). *)
Definition move_construct (dst src : nat) (w : world) : outcome :=
  match objects w !! dst, objects w !! src with
  | None, Some ts => Done (transfer dst src ts w)
  | _, _ => NoObject
  end.

(** Modelled from the spec: move assignment, [dst = std::move(src);],
    missing from the header (test [Thread.Move], which assigns to a
    joinable target): nothing on self-assignment; otherwise a joinable
    target is joined first. *)
Definition move_assign (dst src : nat) (w : world) : outcome :=
  match objects w !! dst, objects w !! src with
  | Some td, Some ts =>
      if decide (dst = src) then Done w
      else if joinable td
      then and_then (join dst) (transfer dst src ts) w
      else Done (transfer dst src ts w)
  | _, _ => NoObject
  end.

(** Modelled from the spec: [Thread::swap], missing from the header (test
    [Thread.Move]). *)
Definition swap (a b : nat) (w : world) : outcome :=
  match objects w !! a, objects w !! b with
  | Some ta, Some tb => Done (set_object a tb (set_object b ta w))
  | _, _ => NoObject
  end.

(** *** Programs *)

(** The operations of the interface on named objects.  There is no copy
    among them. *)
Inductive operation : Set :=
  | DefaultConstruct (o : nat)
  | Construct (o : nat) (f : callable)
  | MoveConstruct (dst src : nat)
  | MoveAssign (dst src : nat)
  | Swap (a b : nat)
  | Join (o : nat)
  | Detach (o : nat)
  | RequestStop (o : nat)
  | Destroy (o : nat).

Definition perform (op : operation) (w : world) : outcome :=
  match op with
  | DefaultConstruct o => default_construct o w
  | Construct o f => construct o f w
  | MoveConstruct dst src => move_construct dst src w
  | MoveAssign dst src => move_assign dst src w
  | Swap a b => swap a b w
  | Join o => join o w
  | Detach o => detach o w
  | RequestStop o => request_stop o w
  | Destroy o => destroy o w
  end.

(** The caller of a blocking operation waits: while the operation is
    blocked on a thread of execution, that thread runs a step and the
    operation is tried again, at most [fuel] times. *)
Fixpoint await (fuel : nat) (op : world -> outcome) (w : world) : outcome :=
  match op w with
  | Blocked h w1 =>
      match fuel with
      | O => Blocked h w1
      | S n => await n op (run h w1)
      end
  | r => r
  end.

(** The steps a callable still takes once a stop is requested; [None]
    when it never returns. *)
Definition steps_left (f : callable) : option nat :=
  match f with
  | Returns n => Some (S n)
  | Cooperative => Some 1%nat
  | Spin => None
  end.

(** The steps a thread of execution still takes under a stop request. *)
Definition remaining (p : progress) : option nat :=
  match p with
  | Completed => Some O
  | Running f => steps_left f
  end.

(** The state a move from the object [src], which held [t], into the
    object [dst] leaves the two objects in: the source is not joinable
    and has the default id, the target is joinable and has the id of
    [t]. *)
Definition moved (GetThreadId : Z -> Z) (p : platform) (t : Thread)
    (dst src : nat) (w : world) : Prop :=
  exists ts td,
    objects w !! src = Some ts /\ objects w !! dst = Some td
    /\ joinable ts = false
    /\ ThreadId.op_eq (get_id GetThreadId p ts) ThreadId.default_id = true
    /\ joinable td = true
    /\ get_id GetThreadId p td = get_id GetThreadId p t.

(** No thread of execution is owned by two objects, and every handle in
    use is below the next one to be handed out. *)
Definition unique_owner (w : world) : Prop :=
  forall o1 o2 t1 t2 h,
    objects w !! o1 = Some t1 -> objects w !! o2 = Some t2 ->
    handle t1 = Some h -> handle t2 = Some h -> o1 = o2.

Definition handles_bounded (w : world) : Prop :=
  forall o t h, objects w !! o = Some t -> handle t = Some h -> h < next_handle w.

Definition well_formed (w : world) : Prop :=
  unique_owner w /\ handles_bounded w.

(** The same, of the objects and the next handle alone. *)
Definition owners_ok (m : gmap nat Thread) (nh : Z) : Prop :=
  (forall o1 o2 t1 t2 h,
     m !! o1 = Some t1 -> m !! o2 = Some t2 ->
     handle t1 = Some h -> handle t2 = Some h -> o1 = o2)
  /\ (forall o t h, m !! o = Some t -> handle t = Some h -> h < nh).

Definition initial : world := mk_world ∅ ∅ 1.

(** The world after [Thread o(f);]. *)
Definition started (o : nat) (f : callable) (w : world) : world :=
  match construct o f w with
  | Done w' => w'
  | _ => w
  end.

(** The worlds of the tests: one stop-aware thread as in
    [Thread.StopToken], and two threads of an empty callable as in
    [Thread.Move]. *)
Definition stop_token_world : world := started 0 Cooperative initial.
Definition move_world : world :=
  started 1 (Returns 0) (started 0 (Returns 0) initial).

End Lifecycle.

(** ** The labels of the priority [switch] *)

(** The eight macros [get_priority] switches on, in the order written. *)
Definition labels (W : priority_macros) : list Z :=
  [THREAD_PRIORITY_ERROR_RETURN W; THREAD_PRIORITY_IDLE W;
   THREAD_PRIORITY_LOWEST W; THREAD_PRIORITY_BELOW_NORMAL W;
   THREAD_PRIORITY_NORMAL W; THREAD_PRIORITY_ABOVE_NORMAL W;
   THREAD_PRIORITY_HIGHEST W; THREAD_PRIORITY_TIME_CRITICAL W].

(** ** The thread name on Windows *)

Module WinName.

(** The wide C string a [const wchar_t*] denotes: the wide characters
    before the first null one. *)
Fixpoint wc_str (ws : list Z) : list Z :=
  match ws with
  | [] => []
  | w :: ws' => if w =? 0 then [] else w :: wc_str ws'
  end.

(** The calls [get_wide_name] and [set_wide_name] make.  A
    [const wchar_t*] argument is recorded as the wide characters of the
    string object whose [c_str()] was passed. *)
Inductive win_call : Set :=
  | GetCurrentThread
  | GetThreadDescription
  | LocalFree
  | SetThreadDescription (lpThreadDescription : list Z).

(** The description Windows keeps for the calling thread, and the calls
    made so far. *)
Record win_state : Set := mk_win_state {
  description : list Z;
  win_calls : list win_call
}.

(** Computations on that state; [None] is undefined behaviour, which the
    conversion helpers can run into. *)
Definition U (A : Type) : Type := win_state -> option (A * win_state).

(** [this_thread::get_wide_name()]: [GetThreadDescription] on the current
    thread, a [std::wstring] built from what it answers, [LocalFree].  The
    description query is taken to succeed; the header does not check
    it. *)
Definition get_wide_name : U (list Z) :=
  fun st =>
    Some (wc_str (description st),
          mk_win_state (description st)
            (win_calls st ++ [GetCurrentThread; GetThreadDescription; LocalFree])).

(** [this_thread::set_wide_name(wname)]: [SetThreadDescription] on the
    current thread with [wname.c_str()]. *)
Definition set_wide_name (wname : list Z) : U unit :=
  fun st =>
    Some (tt,
          mk_win_state (wc_str wname)
            (win_calls st ++ [GetCurrentThread; SetThreadDescription wname])).

(** [this_thread::get_name()], the Windows body: the wide name is read
    twice, and the second reading is converted. *)
Definition get_name (L : locale) : U (list ascii) :=
  fun st =>
    match get_wide_name st with
    | None => None
    | Some (_, st1) =>
        match get_wide_name st1 with
        | None => None
        | Some (wname, st2) =>
            match this_thread.from_wide L wname with
            | None => None
            | Some name => Some (name, st2)
            end
        end
    end.

(** [this_thread::set_name(name)], the Windows body. *)
Definition set_name (L : locale) (name : list ascii) : U unit :=
  fun st =>
    match this_thread.to_wide L name with
    | None => None
    | Some wname => set_wide_name wname st
    end.

(** Every wide character of [ws] is representable in both encodings of
    the locale: it is not null, and it encodes to bytes, none of them NUL,
    that decode back to it whatever follows them. *)
Definition wide_char_representable (L : locale) (w : Z) : Prop :=
  w <> 0
  /\ exists c bs,
       wctomb L w = Some (c :: bs)
       /\ (Ascii.zero ∉ c :: bs)
       /\ forall rest, mbtowc L (c :: bs ++ rest) = Some (w, length bs).

Definition wide_representable (L : locale) (ws : list Z) : Prop :=
  Forall (wide_char_representable L) ws.

End WinName.

(** * Properties *)

(** ** Integer conversions *)

Lemma static_cast_ms_type_id ms : is_ms_type ms -> static_cast_ms_type ms = ms.
Proof.
  unfold is_ms_type, static_cast_ms_type, UINT32_MAX. intros H.
  apply Z.mod_small. lia.
Qed.

Lemma static_cast_ms_type_range ms : is_ms_type (static_cast_ms_type ms).
Proof.
  unfold is_ms_type, static_cast_ms_type, UINT32_MAX.
  pose proof (Z.mod_pos_bound ms (2 ^ 32) ltac:(lia)). lia.
Qed.

(** ** [Thread::id] comparisons *)

Module ThreadIdFacts.
Import ThreadId.

Lemma op_eq_iff a b : op_eq a b = true <-> id_ a = id_ b.
Proof. unfold op_eq. apply Z.eqb_eq. Qed.

Lemma op_eq_same_id a b : op_eq a b = true <-> a = b.
Proof.
  rewrite op_eq_iff. destruct a as [x], b as [y]; simpl.
  split; [intros ->; reflexivity | intros [= ->]; reflexivity].
Qed.

Lemma op_lt_iff a b : op_lt a b = true <-> id_ a < id_ b.
Proof. unfold op_lt. apply Z.ltb_lt. Qed.

Lemma op_gt_iff a b : op_gt a b = true <-> id_ a > id_ b.
Proof. unfold op_gt. rewrite Z.gtb_ltb, Z.ltb_lt. lia. Qed.

Lemma op_le_iff a b : op_le a b = true <-> id_ a <= id_ b.
Proof. unfold op_le. apply Z.leb_le. Qed.

Lemma op_ge_iff a b : op_ge a b = true <-> id_ a >= id_ b.
Proof. unfold op_ge. rewrite Z.geb_leb, Z.leb_le. lia. Qed.

Lemma op_ne_iff a b : op_ne a b = true <-> id_ a <> id_ b.
Proof. unfold op_ne. rewrite negb_true_iff, Z.eqb_neq. reflexivity. Qed.

Lemma trichotomy a b : exactly_one (op_lt a b) (op_eq a b) (op_gt a b) = true.
Proof.
  pose proof (op_lt_iff a b) as Hl. pose proof (op_gt_iff a b) as Hg.
  pose proof (op_eq_iff a b) as He.
  destruct (op_lt a b), (op_eq a b), (op_gt a b); simpl; try reflexivity;
    exfalso; lia.
Qed.

Lemma op_lt_irrefl a : op_lt a a = false.
Proof.
  pose proof (op_lt_iff a a) as H. destruct (op_lt a a); [|reflexivity].
  exfalso. lia.
Qed.

Lemma op_lt_trans a b c : op_lt a b = true -> op_lt b c = true -> op_lt a c = true.
Proof. rewrite !op_lt_iff. lia. Qed.

(** Under C++20 the one operator whose definition disagrees with its
    declaration is [operator<=>]. *)
Lemma cxx20_disagreement o :
  In o (operators Cxx20) -> agrees o = false -> op_name o = "operator<=>"%string.
Proof.
  simpl. intros [<- | [<- | []]] H; [discriminate H | reflexivity].
Qed.

(** C5.  What the header gives of the claim.  [a == b] holds exactly when
    the native values are equal and two default-constructed ids compare
    equal; the five operators of the C++17 branch agree with the order of
    the native values, [<] is irreflexive and transitive, and exactly one
    of [a < b], [a == b], [a > b] holds for every pair.  Under C++20 the
    header does not compile: [operator<=>] is declared with the result
    type [std::strong_ordering] and defined with [bool], so there the
    header orders nothing. *)
Theorem id_comparisons_by_standard (a b c : id) :
  (op_eq a b = true <-> id_ a = id_ b)
  /\ (op_ne a b = true <-> id_ a <> id_ b)
  /\ (op_lt a b = true <-> id_ a < id_ b)
  /\ (op_gt a b = true <-> id_ a > id_ b)
  /\ (op_le a b = true <-> id_ a <= id_ b)
  /\ (op_ge a b = true <-> id_ a >= id_ b)
  /\ op_lt a a = false
  /\ (op_lt a b = true -> op_lt b c = true -> op_lt a c = true)
  /\ exactly_one (op_lt a b) (op_eq a b) (op_gt a b) = true
  /\ op_eq default_id default_id = true
  /\ well_formed Cxx17 = true
  /\ well_formed Cxx20 = false
  /\ (forall o, In o (operators Cxx20) -> agrees o = false ->
       op_name o = "operator<=>"%string).
Proof.
  repeat split;
    try apply op_eq_iff; try apply op_ne_iff; try apply op_lt_iff;
    try apply op_gt_iff; try apply op_le_iff; try apply op_ge_iff;
    try apply op_lt_irrefl; try apply op_lt_trans; try apply trichotomy.
  apply cxx20_disagreement.
Qed.

End ThreadIdFacts.

(** ** The sleep helpers *)

Module SleepFacts.
Import OS this_thread.

Lemma sleep_windows ms st :
  is_ms_type ms -> sleep Windows ms st = (Ok tt, log (Sleep ms) st).
Proof.
  unfold is_ms_type, UINT32_MAX, sleep, DWORD_MAX. intros H.
  rewrite Z.gtb_ltb. destruct (Z.ltb_spec 4294967295 ms) as [Hgt | _]; [lia|].
  reflexivity.
Qed.

Lemma sleep_linux ms st :
  is_ms_type ms ->
  sleep Linux ms st
  = (Ok tt, log (nanosleep (ms / 1000) ((ms mod 1000000) * 1000)) st).
Proof.
  unfold is_ms_type, sleep, Thread.max_sleep. intros H.
  rewrite Z.gtb_ltb. destruct (Z.ltb_spec UINT32_MAX ms) as [Hgt | _]; [lia|].
  reflexivity.
Qed.

(** In the range of [ms_type] neither body of [sleep] throws, and each
    makes one call. *)
Lemma sleep_ok p ms st :
  is_ms_type ms ->
  exists c, sleep p ms st = (Ok tt, log c st).
Proof.
  intros H. destruct p.
  - eexists. apply sleep_windows, H.
  - eexists. apply sleep_linux, H.
Qed.

(** The Linux body asks for [ms_sleep] milliseconds only at the multiples
    of a million: it swaps the factors of the nanosecond field. *)
Lemma sleep_linux_timespec ms :
  is_ms_type ms ->
  timespec_ns (ms / 1000) ((ms mod 1000000) * 1000) = ms * 1000000
  <-> ms mod 1000000 = 0.
Proof.
  unfold is_ms_type, timespec_ns. intros H.
  pose proof (Z.div_mod ms 1000 ltac:(lia)) as D1.
  pose proof (Z.mod_pos_bound ms 1000 ltac:(lia)) as B1.
  pose proof (Z.div_mod ms 1000000 ltac:(lia)) as D2.
  pose proof (Z.mod_pos_bound ms 1000000 ltac:(lia)) as B2.
  lia.
Qed.

(** C3, at the inputs where the code leaves it.  On Windows
    [sleep(0xFFFFFFFF)] exceeds [Thread::max_sleep()] and yet reaches
    [Sleep] without an exception; on Linux [sleep(1)] hands [nanosleep] a
    microsecond, not a millisecond. *)
Theorem sleep_misses_max_sleep (st : os_state) :
  Thread.max_sleep Windows < 4294967295
  /\ is_ms_type 4294967295
  /\ sleep Windows 4294967295 st = (Ok tt, log (Sleep 4294967295) st)
  /\ sleep Linux 1 st = (Ok tt, log (nanosleep 0 1000) st)
  /\ timespec_ns 0 1000 <> 1 * 1000000.
Proof.
  repeat split; try reflexivity; discriminate.
Qed.

Lemma sleep_for_out_of_range p d st :
  Chrono.duration_cast_ms d < 0 \/ Chrono.duration_cast_ms d > UINT32_MAX ->
  sleep_for p d st
  = (Throw (invalid "this_thread::sleep_for: Value was negative or too large!"), st).
Proof.
  intros H. unfold sleep_for.
  destruct (Z.ltb_spec (Chrono.duration_cast_ms d) 0) as [? | ?]; [reflexivity|].
  rewrite Z.gtb_ltb.
  destruct (Z.ltb_spec UINT32_MAX (Chrono.duration_cast_ms d)); [reflexivity | lia].
Qed.

Lemma sleep_for_in_range p d st :
  is_ms_type (Chrono.duration_cast_ms d) ->
  sleep_for p d st = sleep p (Chrono.duration_cast_ms d) st.
Proof.
  intros H. unfold sleep_for. rewrite (static_cast_ms_type_id _ H).
  unfold is_ms_type in H.
  destruct (Z.ltb_spec (Chrono.duration_cast_ms d) 0) as [? | ?]; [lia|].
  rewrite Z.gtb_ltb.
  destruct (Z.ltb_spec UINT32_MAX (Chrono.duration_cast_ms d)); [lia | reflexivity].
Qed.

Lemma sleep_for_throws_iff p d st :
  throws (sleep_for p d st).1
  <-> Chrono.duration_cast_ms d < 0 \/ Chrono.duration_cast_ms d > UINT32_MAX.
Proof.
  split.
  - intros [e He].
    destruct (Z_lt_le_dec (Chrono.duration_cast_ms d) 0) as [? | Hlo]; [auto|].
    destruct (Z_le_gt_dec (Chrono.duration_cast_ms d) UINT32_MAX) as [Hhi | ?]; [|auto].
    assert (Hr : is_ms_type (Chrono.duration_cast_ms d)) by (split; assumption).
    rewrite (sleep_for_in_range p d st Hr) in He.
    destruct (sleep_ok p _ st Hr) as [c Hc]. rewrite Hc in He. discriminate.
  - intros H. rewrite (sleep_for_out_of_range p d st H). eexists. reflexivity.
Qed.

(** The example program's [sleep_for(std::chrono::seconds(1))] on Linux:
    one second and, from the swapped factors, one millisecond more. *)
Example sleep_for_one_second_linux st :
  sleep_for Linux (Chrono.seconds 1) st = (Ok tt, log (nanosleep 1 1000000) st).
Proof. reflexivity. Qed.

Example sleep_for_one_second_windows st :
  sleep_for Windows (Chrono.seconds 1) st = (Ok tt, log (Sleep 1000) st).
Proof. reflexivity. Qed.

(** Half a millisecond before now truncates to zero and sleeps; a whole
    millisecond before now throws. *)
Example sleep_for_truncates st :
  sleep_for Windows (Chrono.mk_duration (-500) (Chrono.mk_ratio 1 1000000)) st
  = (Ok tt, log (Sleep 0) st)
  /\ (sleep_for Windows (Chrono.milliseconds (-1)) st).2 = st
  /\ throws_invalid_argument (sleep_for Windows (Chrono.milliseconds (-1)) st).1.
Proof. repeat split. eexists. reflexivity. Qed.

(** C6.  [sleep_for] throws exactly when the duration in whole
    milliseconds is negative or above the largest [ms_type]; what it
    throws then is [invalid_argument] and the operating system is left as
    it was; otherwise it is the call of [sleep] with that count, which
    returns. *)
Theorem sleep_for_validation (p : platform) (rel_time : Chrono.duration)
    (st : os_state) :
  (throws (sleep_for p rel_time st).1
   <-> Chrono.duration_cast_ms rel_time < 0
       \/ Chrono.duration_cast_ms rel_time > UINT32_MAX)
  /\ (throws (sleep_for p rel_time st).1 ->
      throws_invalid_argument (sleep_for p rel_time st).1
      /\ (sleep_for p rel_time st).2 = st)
  /\ (~ throws (sleep_for p rel_time st).1 ->
      sleep_for p rel_time st = sleep p (Chrono.duration_cast_ms rel_time) st
      /\ (sleep_for p rel_time st).1 = Ok tt
      /\ exists c, calls (sleep_for p rel_time st).2 = calls st ++ [c]).
Proof.
  split; [apply sleep_for_throws_iff|]. split.
  - intros H. apply sleep_for_throws_iff in H.
    rewrite (sleep_for_out_of_range p rel_time st H). simpl.
    split; [eexists; reflexivity | reflexivity].
  - intros H. rewrite sleep_for_throws_iff in H.
    assert (Hr : is_ms_type (Chrono.duration_cast_ms rel_time))
      by (unfold is_ms_type; lia).
    rewrite (sleep_for_in_range p rel_time st Hr).
    destruct (sleep_ok p _ st Hr) as [c Hc]. rewrite Hc. simpl.
    split; [reflexivity|]. split; [reflexivity|]. exists c. reflexivity.
Qed.

(** C8.  [sleep_until] is [sleep_for] of the distance from the clock's
    reading at the call: the same result, the same calls, and an
    exception exactly when that distance is out of range. *)
Theorem sleep_until_is_sleep_for (p : platform) (C : Chrono.Clock)
    (abs_time : Chrono.time_point) (st : os_state) :
  sleep_until p C abs_time st
  = sleep_for p (Chrono.time_point_sub abs_time (Chrono.now C st)) st
  /\ (throws (sleep_until p C abs_time st).1
      <-> throws (sleep_for p (Chrono.time_point_sub abs_time (Chrono.now C st)) st).1).
Proof. split; reflexivity. Qed.

End SleepFacts.

(** ** The thread name on Linux *)

Module NameFacts.
Import OS this_thread.

Lemma c_str_no_nul (s : list ascii) : Ascii.zero ∉ s -> c_str s = s.
Proof.
  induction s as [|c s IH]; intros H; [reflexivity|].
  simpl. destruct (Ascii.eqb_spec c Ascii.zero) as [-> | Hc].
  - exfalso. apply H. left.
  - rewrite IH; [reflexivity|]. intros Hin. apply H. right. exact Hin.
Qed.

Lemma c_str_length (s : list ascii) : (length (c_str s) <= length s)%nat.
Proof.
  induction s as [|c s IH]; simpl; [lia|].
  destruct (Ascii.eqb c Ascii.zero); simpl; lia.
Qed.

Lemma set_name_too_long name st :
  (15 < length name)%nat ->
  set_name name st
  = (Throw (invalid "this_thread::set_name: Linux only supports 15 chars followed by NULL for name"), st).
Proof.
  intros H. unfold set_name.
  destruct (Nat.ltb_spec 15 (length name)); [reflexivity | lia].
Qed.

Lemma set_name_fits name st :
  (length name <= 15)%nat ->
  set_name name st = (Ok tt, rename name (log (pthread_setname_np name) st)).
Proof.
  intros H. unfold set_name.
  destruct (Nat.ltb_spec 15 (length name)); [lia | reflexivity].
Qed.

Lemma rename_calls name st : calls (rename name st) = calls st.
Proof. unfold rename. destruct (_ <=? _)%nat; reflexivity. Qed.

(** A name that fits is the name the thread has afterwards, up to its
    first NUL. *)
Lemma set_name_then_get_name name st :
  (length name <= 15)%nat ->
  (get_name (set_name name st).2).1 = Ok (c_str name).
Proof.
  intros H. rewrite (set_name_fits name st H). simpl.
  unfold rename. pose proof (c_str_length name) as Hl.
  destruct (Nat.leb_spec (length (c_str name)) 15); [reflexivity | lia].
Qed.

(** C7.  A name of more than 15 characters makes [set_name] throw
    [invalid_argument] with the operating system, the thread name
    included, left as it was; a name of at most 15 characters is handed
    to one call of [pthread_setname_np], the only call made, and nothing
    is thrown. *)
Theorem set_name_linux_validation (name : list ascii) (st : os_state) :
  ((15 < length name)%nat ->
     throws_invalid_argument (set_name name st).1
     /\ (set_name name st).2 = st
     /\ thread_name (set_name name st).2 = thread_name st)
  /\ ((length name <= 15)%nat ->
        (set_name name st).1 = Ok tt
        /\ calls (set_name name st).2 = calls st ++ [pthread_setname_np name]).
Proof.
  split; intros H.
  - rewrite (set_name_too_long name st H). simpl.
    split; [eexists; reflexivity | split; reflexivity].
  - rewrite (set_name_fits name st H). simpl.
    split; [reflexivity | apply rename_calls].
Qed.

End NameFacts.

(** ** The thread priority on Windows *)

Module PriorityFacts.
Import OS this_thread.

Section Macros.
Variable W : priority_macros.

Lemma get_priority_select st :
  (get_priority W st).1
  = match select W (thread_priority st) with
    | Some e => Ok e
    | None => Throw (mk_system_error (system_category (last_error st)) EmptyString)
    end.
Proof.
  unfold get_priority, select, bind, call_GetThreadPriority. simpl.
  repeat (destruct (_ =? _); [reflexivity|]).
  destruct (_ <? _); reflexivity.
Qed.

Lemma select_error p : select W p = None <-> p = THREAD_PRIORITY_ERROR_RETURN W.
Proof.
  unfold select. destruct (Z.eqb_spec p (THREAD_PRIORITY_ERROR_RETURN W)).
  - split; auto.
  - repeat (destruct (_ =? _); [split; [discriminate | contradiction]|]).
    destruct (_ <? _); split; try discriminate; contradiction.
Qed.

Lemma select_named p e :
  p <> THREAD_PRIORITY_ERROR_RETURN W ->
  priority_value W e = p ->
  exists e', select W p = Some e' /\ priority_value W e' = p.
Proof.
  intros Hne He. unfold select.
  destruct (Z.eqb_spec p (THREAD_PRIORITY_ERROR_RETURN W)); [contradiction|].
  repeat match goal with
         | |- context [if ?x =? ?y then _ else _] =>
             destruct (Z.eqb_spec x y);
             [eexists; split; [reflexivity | simpl; congruence]|]
         end.
  exfalso. destruct e; simpl in He; congruence.
Qed.

Lemma select_unnamed p :
  p <> THREAD_PRIORITY_ERROR_RETURN W ->
  (forall e, priority_value W e <> p) ->
  select W p = Some (if p <? 0 then Thread.IDLE else Thread.TIME_CRITICAL).
Proof.
  intros Hne Hno. unfold select.
  destruct (Z.eqb_spec p (THREAD_PRIORITY_ERROR_RETURN W)); [contradiction|].
  pose proof (Hno Thread.IDLE). pose proof (Hno Thread.LOWEST).
  pose proof (Hno Thread.LOW). pose proof (Hno Thread.NORMAL).
  pose proof (Hno Thread.HIGH). pose proof (Hno Thread.HIGHEST).
  pose proof (Hno Thread.TIME_CRITICAL). simpl in *.
  repeat match goal with
         | |- context [if ?x =? ?y then _ else _] =>
             destruct (Z.eqb_spec x y); [congruence|]
         end.
  destruct (p <? 0); reflexivity.
Qed.

End Macros.

(** C9.  [get_priority] throws exactly when [GetThreadPriority] answers
    [THREAD_PRIORITY_ERROR_RETURN].  For any other native value it returns
    an enumerator of that value when there is one, and otherwise [IDLE]
    for a negative value and [TIME_CRITICAL] for a non-negative one. *)
Theorem get_priority_cases (W : priority_macros) (st : os_state) :
  (throws (get_priority W st).1
   <-> thread_priority st = THREAD_PRIORITY_ERROR_RETURN W)
  /\ (thread_priority st <> THREAD_PRIORITY_ERROR_RETURN W ->
      (forall e, priority_value W e = thread_priority st ->
         exists e', (get_priority W st).1 = Ok e'
                    /\ priority_value W e' = thread_priority st)
      /\ ((forall e, priority_value W e <> thread_priority st) ->
          (thread_priority st < 0 -> (get_priority W st).1 = Ok Thread.IDLE)
          /\ (0 <= thread_priority st ->
              (get_priority W st).1 = Ok Thread.TIME_CRITICAL))).
Proof.
  rewrite get_priority_select. split; [|intros Hne; split].
  - rewrite <- select_error. destruct (select W (thread_priority st)).
    + split; [intros [e He]; discriminate | discriminate].
    + split; [reflexivity | intros _; eexists; reflexivity].
  - intros e He. destruct (select_named W _ e Hne He) as [e' [-> Hv]].
    exists e'. split; [reflexivity | exact Hv].
  - intros Hno. rewrite (select_unnamed W _ Hne Hno).
    split; intros H.
    + destruct (Z.ltb_spec (thread_priority st) 0); [reflexivity | lia].
    + destruct (Z.ltb_spec (thread_priority st) 0); [lia | reflexivity].
Qed.

(** With the values of the Windows SDK the enumerators are distinct, so
    the enumerator returned is the one of that value. *)
Lemma winbase_priority_value_inj e e' :
  priority_value winbase e = priority_value winbase e' -> e = e'.
Proof. destruct e, e'; simpl; intros H; try reflexivity; discriminate. Qed.

Example get_priority_above_normal :
  (get_priority winbase (mk_os_state [] 1 0 [])).1 = Ok Thread.HIGH.
Proof. reflexivity. Qed.

Example get_priority_realtime_level :
  (get_priority winbase (mk_os_state [] 7 0 [])).1 = Ok Thread.TIME_CRITICAL.
Proof. reflexivity. Qed.

End PriorityFacts.

(** ** Wide and narrow strings *)

Module WideFacts.
Import OS this_thread.

Section Locale.
Variable L : locale.

(** Passing over the rest of a character is dropping its bytes. *)
Lemma mbs_decode_skip k s :
  (k <= length s)%nat -> mbs_decode L k s = mbs_decode L 0 (drop k s).
Proof.
  revert s. induction k as [|k IH]; intros s Hk; [reflexivity|].
  destruct s as [|c s]; simpl in *; [lia|]. apply IH. lia.
Qed.

Lemma representable_from_skip k s :
  representable_from L k s = true ->
  (k <= length s)%nat /\ representable_from L 0 (drop k s) = true.
Proof.
  revert s. induction k as [|k IH]; intros s H.
  - split; [lia | exact H].
  - destruct s as [|c s]; simpl in *; [discriminate|].
    destruct (IH s H) as [Hk Hr]. split; [lia | exact Hr].
Qed.

Lemma not_elem_of_drop (k : nat) (s : list ascii) :
  Ascii.zero ∉ s -> Ascii.zero ∉ drop k s.
Proof.
  intros H Hin. apply H. apply list_elem_of_In.
  apply list_elem_of_In in Hin.
  rewrite <- (take_drop k s). apply in_or_app. right. exact Hin.
Qed.

(** A NUL-free representable string decodes to wide characters, none of
    them null, that encode back to it. *)
Lemma decode_encode n : forall s,
  (length s <= n)%nat ->
  Ascii.zero ∉ s ->
  representable_from L 0 s = true ->
  exists ws, mbs_decode L 0 s = Some ws
             /\ Forall (fun w => w <> 0) ws
             /\ wcs_encode L ws = Some s.
Proof.
  induction n as [|n IH]; intros s Hlen Hnul Hrep.
  - destruct s; [|simpl in Hlen; lia]. exists []. repeat split. constructor.
  - destruct s as [|c s]; [exists []; repeat split; constructor|].
    simpl in Hrep. simpl.
    destruct (mbtowc L (c :: s)) as [[w k]|] eqn:Hdec; [|discriminate].
    destruct (wctomb L w) as [bs|] eqn:Henc; [|discriminate].
    apply andb_true_iff in Hrep as [Hbs Hrep].
    apply bool_decide_eq_true in Hbs.
    apply representable_from_skip in Hrep as [Hk Hrep].
    assert (Hw : w <> 0).
    { intros ->. apply mbtowc_null in Hdec. subst c. apply Hnul. left. }
    assert (Hnul' : Ascii.zero ∉ drop k s).
    { apply not_elem_of_drop. intros Hin. apply Hnul. right. exact Hin. }
    destruct (IH (drop k s)) as [ws [Hws [Hnz Hback]]]; [|exact Hnul'|exact Hrep|].
    { rewrite length_drop. simpl in Hlen. lia. }
    exists (w :: ws).
    destruct (Z.eqb_spec w 0) as [? | _]; [contradiction|].
    rewrite (mbs_decode_skip k s Hk), Hws.
    split; [reflexivity|]. split; [constructor; assumption|].
    simpl. destruct (Z.eqb_spec w 0) as [? | _]; [contradiction|].
    rewrite Henc, Hback, Hbs. f_equal.
    change (take (S k) (c :: s)) with (c :: take k s). simpl.
    f_equal. apply take_drop.
Qed.

Lemma wstring_of_terminated ws :
  Forall (fun w => w <> 0) ws -> wstring_of (ws ++ [0]) = Some ws.
Proof.
  induction 1 as [|w ws Hw _ IH]; [reflexivity|].
  simpl. destruct (Z.eqb_spec w 0); [contradiction|]. rewrite IH. reflexivity.
Qed.

Lemma string_of_terminated (s : list ascii) :
  Ascii.zero ∉ s -> string_of (s ++ [Ascii.zero]) = Some s.
Proof.
  induction s as [|c s IH]; intros H; [reflexivity|].
  simpl. destruct (Ascii.eqb_spec c Ascii.zero) as [-> | Hc].
  - exfalso. apply H. left.
  - rewrite IH; [reflexivity|]. intros Hin. apply H. right. exact Hin.
Qed.

(** With room for every byte and the terminator, [wcstombs] writes the
    whole encoding and terminates it. *)
Lemma wcstombs_write_all ws : forall s n,
  wcs_encode L ws = Some s ->
  (length s < n)%nat ->
  wcstombs_write L ws n = s ++ [Ascii.zero].
Proof.
  induction ws as [|w ws IH]; intros s n Henc Hn; simpl in *.
  - injection Henc as <-. destruct n; [lia | reflexivity].
  - destruct (w =? 0).
    + injection Henc as <-. destruct n; [lia | reflexivity].
    + destruct (wctomb L w) as [bs|]; [|discriminate].
      destruct (wcs_encode L ws) as [rest|]; [|discriminate].
      injection Henc as <-. rewrite length_app in Hn.
      destruct (Nat.leb_spec (length bs) n); [|lia].
      rewrite (IH rest (n - length bs)%nat eq_refl) by lia.
      rewrite <- app_assoc. reflexivity.
Qed.

Lemma to_wide_decoded name ws :
  mbs_decode L 0 (c_str name) = Some ws ->
  Forall (fun w => w <> 0) ws ->
  to_wide L name = Some ws.
Proof.
  intros Hdec Hnz. unfold to_wide, mbstowcs_count, mbstowcs_write.
  rewrite Hdec. simpl plus_one.
  rewrite take_ge by (rewrite length_app; simpl; lia).
  apply wstring_of_terminated, Hnz.
Qed.

Lemma from_wide_encoded ws (s : list ascii) :
  wcs_encode L ws = Some s ->
  Ascii.zero ∉ s ->
  from_wide L ws = Some s.
Proof.
  intros Henc Hnul. unfold from_wide, wcstombs_count.
  rewrite Henc. simpl plus_one.
  rewrite (wcstombs_write_all ws s (S (length s)) Henc) by lia.
  apply string_of_terminated, Hnul.
Qed.

End Locale.

(** C10, as amended.  For every locale and every narrow string without a
    NUL character, all of whose characters are representable in both
    encodings, [from_wide(to_wide(name))] is [name]. *)
Theorem round_trip_c_string (L : locale) (name : list ascii) :
  representable L name ->
  Ascii.zero ∉ name ->
  round_trip L name = Some name.
Proof.
  intros Hrep Hnul. unfold representable in Hrep.
  destruct (decode_encode L (length name) name (le_n _) Hnul Hrep)
    as [ws [Hdec [Hnz Henc]]].
  unfold round_trip.
  rewrite (to_wide_decoded L name ws); [|rewrite NameFacts.c_str_no_nul; assumption|assumption].
  apply from_wide_encoded; assumption.
Qed.

Lemma round_trip_c_string_witness :
  round_trip C_locale (list_ascii_of_string "main_thread")
  = Some (list_ascii_of_string "main_thread").
Proof.
  apply (round_trip_c_string C_locale (list_ascii_of_string "main_thread")).
  - reflexivity.
  - apply (bool_decide_unpack _). vm_compute. exact I.
Defined.

(** C10 as stated fails at a name with a NUL in the middle: each of its
    three characters is representable in the ["C"] locale, and the round
    trip stops at the NUL. *)
Lemma round_trip_embedded_nul :
  representable C_locale ["a"%char; Ascii.zero; "b"%char]
  /\ round_trip C_locale ["a"%char; Ascii.zero; "b"%char] = Some ["a"%char]
  /\ round_trip C_locale ["a"%char; Ascii.zero; "b"%char]
     <> Some ["a"%char; Ascii.zero; "b"%char].
Proof. repeat split. discriminate. Qed.

End WideFacts.

(** ** The life cycle of a [Thread] object *)

Module LifecycleFacts.
Import Lifecycle.

(** *** Threads of execution under the scheduler *)

Lemma lookup_run_eq h w :
  threads (run h w) !! h = step_execution <$> threads w !! h.
Proof. unfold run; simpl. apply lookup_alter_eq. Qed.

Lemma lookup_run_ne h h' w :
  h ≠ h' -> threads (run h w) !! h' = threads w !! h'.
Proof. intros H. unfold run; simpl. apply lookup_alter_ne, H. Qed.

Lemma objects_runs h n w : objects (Nat.iter n (run h) w) = objects w.
Proof. induction n as [|n IH]; [reflexivity | exact IH]. Qed.

Lemma step_execution_completed e :
  state e = Completed -> step_execution e = e.
Proof. unfold step_execution. intros ->. reflexivity. Qed.

Lemma stop_flag_step e : stop_flag (step_execution e) = stop_flag e.
Proof. unfold step_execution. destruct (state e); reflexivity. Qed.

Lemma completed_run h h' w : completed h w = true -> completed h (run h' w) = true.
Proof.
  unfold completed. destruct (decide (h' = h)) as [-> | Hne].
  - rewrite lookup_run_eq. destruct (threads w !! h) as [e|]; [|discriminate].
    simpl. destruct (state e) eqn:He; [discriminate|].
    rewrite (step_execution_completed e He), He. reflexivity.
  - rewrite (lookup_run_ne _ _ _ Hne). auto.
Qed.

Lemma completed_runs h n w :
  completed h w = true -> completed h (Nat.iter n (run h) w) = true.
Proof.
  intros H. induction n as [|n IH]; [exact H|].
  rewrite Nat.iter_succ. apply completed_run, IH.
Qed.

Lemma stop_requested_run h h' w :
  stop_requested (Some h) (run h' w) = stop_requested (Some h) w.
Proof.
  unfold stop_requested. destruct (decide (h' = h)) as [-> | Hne].
  - rewrite lookup_run_eq. destruct (threads w !! h) as [e|]; [|reflexivity].
    simpl. apply stop_flag_step.
  - rewrite (lookup_run_ne _ _ _ Hne). reflexivity.
Qed.

Lemma stop_requested_runs h h' n w :
  stop_requested (Some h) (Nat.iter n (run h') w) = stop_requested (Some h) w.
Proof.
  induction n as [|n IH]; [reflexivity|].
  rewrite Nat.iter_succ, stop_requested_run. exact IH.
Qed.

Lemma remaining_step e n :
  stop_flag e = true ->
  remaining (state e) = Some (S n) ->
  remaining (state (step_execution e)) = Some n.
Proof.
  unfold step_execution. destruct e as [[f|] stop]; simpl; [|discriminate].
  intros -> H. destruct f as [[|k] | |]; simpl in *; congruence.
Qed.

Lemma remaining_zero e : remaining (state e) = Some O <-> state e = Completed.
Proof.
  destruct (state e) as [[k| |]|]; simpl; split; intros H;
    try discriminate; reflexivity.
Qed.

Lemma completed_lookup h w e :
  threads w !! h = Some e ->
  completed h w = match state e with Completed => true | Running _ => false end.
Proof. unfold completed. intros ->. reflexivity. Qed.

(** A cooperative loop that nobody asks to stop keeps running. *)
Lemma cooperative_keeps_running h n w e :
  threads w !! h = Some e ->
  state e = Running Cooperative ->
  stop_flag e = false ->
  threads (Nat.iter n (run h) w) !! h = Some e.
Proof.
  intros Hl Hs Hf. induction n as [|n IH]; [exact Hl|].
  rewrite Nat.iter_succ, lookup_run_eq, IH. simpl. f_equal.
  unfold step_execution. rewrite Hs, Hf. simpl.
  destruct e; simpl in *; congruence.
Qed.

(** *** Stop requests *)

Lemma lookup_request_stop h w :
  threads (source_request_stop (Some h) w) !! h = set_stop <$> threads w !! h.
Proof. simpl. apply lookup_alter_eq. Qed.

Lemma completed_request_stop h src w :
  completed h (source_request_stop src w) = completed h w.
Proof.
  destruct src as [h'|]; [|reflexivity]. unfold completed. simpl.
  destruct (decide (h' = h)) as [-> | Hne].
  - rewrite lookup_alter_eq. destruct (threads w !! h); reflexivity.
  - rewrite lookup_alter_ne by exact Hne. reflexivity.
Qed.

Lemma objects_request_stop src w : objects (source_request_stop src w) = objects w.
Proof. destruct src; reflexivity. Qed.

(** C4.  For a [Thread] that owns a thread of execution running the
    cooperative loop, [request_stop] on the object is [request_stop] on
    its stop source; afterwards the token reports the request, now and
    after any number of steps of the loop; the loop ends at its next step
    and stays ended, whereas without a request it would run on; and the
    object is unchanged, hence still joinable. *)
Theorem request_stop_ends_cooperative_loop
    (o : nat) (t : Thread) (h : Z) (e : execution) (w : world) :
  objects w !! o = Some t ->
  handle t = Some h ->
  ssource t = Some h ->
  threads w !! h = Some e ->
  state e = Running Cooperative ->
  request_stop o w = Done (source_request_stop (get_stop_source t) w)
  /\ (forall n,
        stop_requested (get_stop_token t)
          (Nat.iter n (run h) (source_request_stop (get_stop_source t) w)) = true)
  /\ (forall n,
        completed h
          (Nat.iter (S n) (run h) (source_request_stop (get_stop_source t) w)) = true)
  /\ (stop_flag e = false -> forall n, completed h (Nat.iter n (run h) w) = false)
  /\ (forall n,
        objects (Nat.iter n (run h) (source_request_stop (get_stop_source t) w)) !! o
        = Some t)
  /\ joinable t = true.
Proof.
  intros Ho Hh Hs Hl Hst. unfold get_stop_source, get_stop_token. rewrite Hs.
  assert (Hl1 : threads (source_request_stop (Some h) w) !! h = Some (set_stop e))
    by (rewrite lookup_request_stop, Hl; reflexivity).
  repeat split.
  - unfold request_stop. rewrite Ho, Hs. reflexivity.
  - intros n. rewrite stop_requested_runs. unfold stop_requested.
    rewrite Hl1. reflexivity.
  - intros n. rewrite Nat.iter_succ_r. apply completed_runs.
    unfold completed. rewrite lookup_run_eq, Hl1. simpl.
    unfold step_execution. simpl. rewrite Hst. reflexivity.
  - intros Hf n. unfold completed.
    rewrite (cooperative_keeps_running h n w e Hl Hst Hf), Hst. reflexivity.
  - intros n. rewrite objects_runs, objects_request_stop. exact Ho.
  - unfold joinable. rewrite Hh. reflexivity.
Qed.

(** *** Waiting *)

(** Whatever a waiting caller ends with is what the operation answered
    in some world reached on the way. *)
Lemma await_inv (P : world -> Prop) (op : world -> outcome) :
  (forall w h w1, P w -> op w = Blocked h w1 -> P (run h w1)) ->
  forall n w r, P w -> await n op w = r -> exists w0, P w0 /\ op w0 = r.
Proof.
  intros Hstep. induction n as [|n IH]; intros w r HP Hr; simpl in Hr.
  - exists w. split; [exact HP|]. destruct (op w); exact Hr.
  - destruct (op w) as [w'|h w1| | |] eqn:Hop;
      try (exists w; split; [exact HP | congruence]).
    apply (IH (run h w1) r); [|exact Hr]. eapply Hstep; eauto.
Qed.

Lemma await_ext (P : world -> Prop) (op1 op2 : world -> outcome) :
  (forall w, P w -> op1 w = op2 w) ->
  (forall w h w1, P w -> op2 w = Blocked h w1 -> P (run h w1)) ->
  forall n w, P w -> await n op1 w = await n op2 w.
Proof.
  intros Heq Hstep. induction n as [|n IH]; intros w HP; simpl.
  - rewrite (Heq w HP). reflexivity.
  - rewrite (Heq w HP). destruct (op2 w) as [w'|h w1| | |] eqn:Hop; try reflexivity.
    apply IH. eapply Hstep; eauto.
Qed.

Lemma await_and_then (op : world -> outcome) (g : world -> world) :
  forall n w, await n (and_then op g) w = and_then (await n op) g w.
Proof.
  induction n as [|n IH]; intros w.
  - unfold and_then; simpl. destruct (op w); reflexivity.
  - simpl. unfold and_then at 1. destruct (op w) as [w'|h w1| | |] eqn:Hop.
    + unfold and_then. simpl. rewrite Hop. reflexivity.
    + rewrite IH. unfold and_then. simpl. rewrite Hop. reflexivity.
    + unfold and_then. simpl. rewrite Hop. reflexivity.
    + unfold and_then. simpl. rewrite Hop. reflexivity.
    + unfold and_then. simpl. rewrite Hop. reflexivity.
Qed.

(** *** Joining *)

Lemma join_joinable o t h w :
  objects w !! o = Some t ->
  handle t = Some h ->
  join o w
  = if completed h w
    then Done (set_object o (mk_Thread None (ssource t))
                 (source_request_stop (ssource t) w))
    else Blocked h (source_request_stop (ssource t) w).
Proof.
  intros Ho Hh. unfold join. rewrite Ho, Hh, completed_request_stop. reflexivity.
Qed.

(** While [join] is blocked the objects stay as they are. *)
Lemma join_blocked_objects o w h w1 :
  join o w = Blocked h w1 -> objects (run h w1) = objects w.
Proof.
  unfold join. destruct (objects w !! o) as [t|]; [|discriminate].
  destruct (handle t) as [h'|]; [|discriminate].
  destruct (completed h' _); [discriminate|].
  intros [= <- <-]. simpl. apply objects_request_stop.
Qed.

Lemma join_outcome o w :
  join o w <> Terminated.
Proof.
  unfold join. destruct (objects w !! o) as [t|]; [|discriminate].
  destruct (handle t) as [h'|]; [|discriminate].
  destruct (completed h' _); discriminate.
Qed.

(** [join] returns once the thread of execution has taken the steps it
    has left. *)
Lemma await_join o t h : forall n w e,
  objects w !! o = Some t ->
  handle t = Some h ->
  ssource t = Some h ->
  threads w !! h = Some e ->
  remaining (state e) = Some n ->
  exists w', await n (join o) w = Done w'
             /\ completed h w' = true
             /\ objects w' = <[o := mk_Thread None (Some h)]> (objects w).
Proof.
  induction n as [|n IH]; intros w e Ho Hh Hs Hl Hrem.
  - apply remaining_zero in Hrem. simpl.
    rewrite (join_joinable o t h w Ho Hh), (completed_lookup h w e Hl), Hrem, Hs.
    eexists. split; [reflexivity|]. split; [|reflexivity].
    unfold completed. simpl. rewrite lookup_alter_eq, Hl. simpl.
    rewrite Hrem. reflexivity.
  - assert (Hrun : exists f, state e = Running f).
    { destruct (state e) as [f|]; [eauto | discriminate]. }
    destruct Hrun as [f Hf]. simpl.
    rewrite (join_joinable o t h w Ho Hh), (completed_lookup h w e Hl), Hf, Hs.
    destruct (IH (run h (source_request_stop (Some h) w))
                 (step_execution (set_stop e))) as [w' [Hw' [Hc Hobj]]].
    + exact Ho.
    + exact Hh.
    + exact Hs.
    + rewrite lookup_run_eq, lookup_request_stop, Hl. reflexivity.
    + apply remaining_step; [reflexivity | exact Hrem].
    + exists w'. split; [exact Hw'|]. split; [exact Hc | exact Hobj].
Qed.

(** A thread of execution that never returns keeps [join] blocked. *)
Lemma await_join_spin o t h : forall n w e,
  objects w !! o = Some t ->
  handle t = Some h ->
  threads w !! h = Some e ->
  state e = Running Spin ->
  exists w1, await n (join o) w = Blocked h w1.
Proof.
  induction n as [|n IH]; intros w e Ho Hh Hl Hst; simpl;
    rewrite (join_joinable o t h w Ho Hh), (completed_lookup h w e Hl), Hst.
  - eexists. reflexivity.
  - destruct (ssource t) as [hs|] eqn:Hs.
    + destruct (decide (hs = h)) as [-> | Hne].
      * apply (IH _ (step_execution (set_stop e))); [exact Ho | exact Hh | |].
        -- rewrite lookup_run_eq, lookup_request_stop, Hl. reflexivity.
        -- unfold step_execution. simpl. rewrite Hst. reflexivity.
      * apply (IH _ (step_execution e)); [exact Ho | exact Hh | |].
        -- rewrite lookup_run_eq. simpl. rewrite lookup_alter_ne by exact Hne.
           rewrite Hl. reflexivity.
        -- unfold step_execution. rewrite Hst. reflexivity.
    + apply (IH _ (step_execution e)); [exact Ho | exact Hh | |].
      * rewrite lookup_run_eq. simpl. rewrite Hl. reflexivity.
      * unfold step_execution. rewrite Hst. reflexivity.
Qed.

(** *** Destruction *)

Lemma destroy_joinable o t w :
  objects w !! o = Some t ->
  joinable t = true ->
  destroy o w = and_then (join o) (drop_object o) w.
Proof. intros Ho Hj. unfold destroy. rewrite Ho, Hj. reflexivity. Qed.

Lemma await_destroy o t w n :
  objects w !! o = Some t ->
  joinable t = true ->
  await n (destroy o) w = and_then (await n (join o)) (drop_object o) w.
Proof.
  intros Ho Hj. rewrite <- await_and_then.
  apply (await_ext (fun w0 => objects w0 !! o = Some t)); [| |exact Ho].
  - intros w0 H0. apply (destroy_joinable o t w0 H0 Hj).
  - intros w0 h w1 H0 Hb. unfold and_then in Hb.
    destruct (join o w0) as [w'|h' w1'| | |] eqn:Hjoin; try discriminate.
    injection Hb as <- <-. rewrite (join_blocked_objects o w0 h' w1' Hjoin).
    exact H0.
Qed.

(** C1.  Destroying an object that is not joinable only removes the
    object.  Destroying a joinable one never terminates the program, as
    [std::thread] would; it returns only when the owned thread of
    execution has completed, and then the object is gone; it does return
    once that thread has taken the steps it has left, and it stays
    blocked on a thread that never returns. *)
Theorem destructor_joins (o : nat) (t : Thread) (w : world) :
  objects w !! o = Some t ->
  (joinable t = false -> destroy o w = Done (drop_object o w))
  /\ (joinable t = true ->
      std_thread_destroy o w = Terminated
      /\ (forall n, await n (destroy o) w <> Terminated)
      /\ (forall h n w', handle t = Some h ->
            await n (destroy o) w = Done w' ->
            completed h w' = true /\ objects w' !! o = None)
      /\ (forall h e n, handle t = Some h -> ssource t = Some h ->
            threads w !! h = Some e -> remaining (state e) = Some n ->
            exists w', await n (destroy o) w = Done w')
      /\ (forall h e n, handle t = Some h ->
            threads w !! h = Some e -> state e = Running Spin ->
            exists w1, await n (destroy o) w = Blocked h w1)).
Proof.
  intros Ho. split.
  - intros Hj. unfold destroy. rewrite Ho, Hj. reflexivity.
  - intros Hj. split; [|split; [|split; [|split]]].
    + unfold std_thread_destroy. rewrite Ho, Hj. reflexivity.
    + intros n Hterm. rewrite (await_destroy o t w n Ho Hj) in Hterm.
      unfold and_then in Hterm.
      destruct (await n (join o) w) as [w'|h w1| | |] eqn:Haw; try discriminate.
      destruct (await_inv (fun _ => True) (join o) ltac:(auto) n w _ I Haw)
        as [w0 [_ H0]].
      exact (join_outcome o w0 H0).
    + intros h n w' Hh Hdone. rewrite (await_destroy o t w n Ho Hj) in Hdone.
      unfold and_then in Hdone.
      destruct (await n (join o) w) as [w''|h' w1| | |] eqn:Haw; try discriminate.
      injection Hdone as <-.
      destruct (await_inv (fun w0 => objects w0 !! o = Some t) (join o)) with
        (n := n) (w := w) (r := Done w'') as [w0 [H0 Hj0]]; [|exact Ho|exact Haw|].
      { intros w0 h0 w1 H0 Hb. rewrite (join_blocked_objects o w0 h0 w1 Hb).
        exact H0. }
      rewrite (join_joinable o t h w0 H0 Hh) in Hj0.
      destruct (completed h w0) eqn:Hc; [|discriminate].
      injection Hj0 as <-. split.
      * change (completed h (source_request_stop (ssource t) w0) = true).
        rewrite completed_request_stop. exact Hc.
      * simpl. apply lookup_delete_eq.
    + intros h e n Hh Hs Hl Hrem.
      destruct (await_join o t h n w e Ho Hh Hs Hl Hrem) as [w' [Hw' _]].
      exists (drop_object o w'). rewrite (await_destroy o t w n Ho Hj).
      unfold and_then. rewrite Hw'. reflexivity.
    + intros h e n Hh Hl Hst.
      destruct (await_join_spin o t h n w e Ho Hh Hl Hst) as [w1 Hw1].
      exists w1. rewrite (await_destroy o t w n Ho Hj).
      unfold and_then. rewrite Hw1. reflexivity.
Qed.

(** *** Moves *)

Section Ids.
Variable GetThreadId : Z -> Z.
Variable p : platform.

Lemma transfer_moved dst src t w :
  dst <> src -> joinable t = true ->
  moved GetThreadId p t dst src (transfer dst src t w).
Proof.
  intros Hne Hj. exists empty_Thread, t. unfold transfer; simpl.
  rewrite lookup_insert_ne by exact Hne.
  rewrite !lookup_insert_eq. repeat split; assumption.
Qed.

Lemma move_assign_distinct dst src told t w :
  objects w !! dst = Some told ->
  objects w !! src = Some t ->
  dst <> src ->
  move_assign dst src w
  = if joinable told
    then and_then (join dst) (transfer dst src t) w
    else Done (transfer dst src t w).
Proof.
  intros Hd Hs Hne. unfold move_assign. rewrite Hd, Hs.
  destruct (decide (dst = src)); [contradiction | reflexivity].
Qed.

Lemma await_move_assign dst src told t w n :
  objects w !! dst = Some told ->
  objects w !! src = Some t ->
  dst <> src ->
  joinable told = true ->
  await n (move_assign dst src) w
  = and_then (await n (join dst)) (transfer dst src t) w.
Proof.
  intros Hd Hs Hne Hj. rewrite <- await_and_then.
  apply (await_ext (fun w0 => objects w0 = objects w)); [| |reflexivity].
  - intros w0 H0.
    rewrite (move_assign_distinct dst src told t w0); rewrite ?H0; try assumption.
    rewrite Hj. reflexivity.
  - intros w0 h w1 H0 Hb. unfold and_then in Hb.
    destruct (join dst w0) as [w'|h' w1'| | |] eqn:Hjoin; try discriminate.
    injection Hb as <- <-. rewrite (join_blocked_objects dst w0 h' w1' Hjoin).
    exact H0.
Qed.

End Ids.

(** *** Ownership *)

Lemma well_formed_owners w : well_formed w <-> owners_ok (objects w) (next_handle w).
Proof. reflexivity. Qed.

Lemma owners_ok_release m nh o t' :
  owners_ok m nh -> handle t' = None -> owners_ok (<[o := t']> m) nh.
Proof.
  intros [Hu Hb] Hnone. split.
  - intros o1 o2 t1 t2 h H1 H2 Hh1 Hh2.
    apply lookup_insert_Some in H1 as [[-> <-] | [Hn1 H1]]; [congruence|].
    apply lookup_insert_Some in H2 as [[-> <-] | [Hn2 H2]]; [congruence|].
    exact (Hu _ _ _ _ _ H1 H2 Hh1 Hh2).
  - intros o1 t1 h H1 Hh1.
    apply lookup_insert_Some in H1 as [[-> <-] | [Hn1 H1]]; [congruence|].
    exact (Hb _ _ _ H1 Hh1).
Qed.

Lemma owners_ok_delete m nh o : owners_ok m nh -> owners_ok (delete o m) nh.
Proof.
  intros [Hu Hb]. split.
  - intros o1 o2 t1 t2 h H1 H2 Hh1 Hh2.
    apply lookup_delete_Some in H1 as [_ H1].
    apply lookup_delete_Some in H2 as [_ H2].
    exact (Hu _ _ _ _ _ H1 H2 Hh1 Hh2).
  - intros o1 t1 h H1 Hh1. apply lookup_delete_Some in H1 as [_ H1].
    exact (Hb _ _ _ H1 Hh1).
Qed.

Lemma owners_ok_fresh m nh o ss :
  owners_ok m nh -> owners_ok (<[o := mk_Thread (Some nh) ss]> m) (nh + 1).
Proof.
  intros [Hu Hb]. split.
  - intros o1 o2 t1 t2 h H1 H2 Hh1 Hh2.
    apply lookup_insert_Some in H1 as [[-> <-] | [Hn1 H1]];
      apply lookup_insert_Some in H2 as [[-> <-] | [Hn2 H2]].
    + reflexivity.
    + simpl in Hh1. injection Hh1 as <-. pose proof (Hb _ _ _ H2 Hh2). lia.
    + simpl in Hh2. injection Hh2 as <-. pose proof (Hb _ _ _ H1 Hh1). lia.
    + exact (Hu _ _ _ _ _ H1 H2 Hh1 Hh2).
  - intros o1 t1 h H1 Hh1.
    apply lookup_insert_Some in H1 as [[-> <-] | [Hn1 H1]].
    + simpl in Hh1. injection Hh1 as <-. lia.
    + pose proof (Hb _ _ _ H1 Hh1). lia.
Qed.

Lemma owners_ok_transfer m nh dst src ts :
  owners_ok m nh -> m !! src = Some ts -> dst <> src ->
  owners_ok (<[dst := ts]> (<[src := empty_Thread]> m)) nh.
Proof.
  intros [Hu Hb] Hs Hne. split.
  - intros o1 o2 t1 t2 h H1 H2 Hh1 Hh2.
    apply lookup_insert_Some in H1 as [[-> <-] | [Hn1 H1]];
      apply lookup_insert_Some in H2 as [[-> <-] | [Hn2 H2]].
    + reflexivity.
    + apply lookup_insert_Some in H2 as [[-> <-] | [Hn2' H2]]; [discriminate|].
      exfalso. apply Hn2'. exact (Hu _ _ _ _ _ Hs H2 Hh1 Hh2).
    + apply lookup_insert_Some in H1 as [[-> <-] | [Hn1' H1]]; [discriminate|].
      exfalso. apply Hn1'. exact (Hu _ _ _ _ _ Hs H1 Hh2 Hh1).
    + apply lookup_insert_Some in H1 as [[-> <-] | [Hn1' H1]]; [discriminate|].
      apply lookup_insert_Some in H2 as [[-> <-] | [Hn2' H2]]; [discriminate|].
      exact (Hu _ _ _ _ _ H1 H2 Hh1 Hh2).
  - intros o1 t1 h H1 Hh1.
    apply lookup_insert_Some in H1 as [[-> <-] | [Hn1 H1]].
    + exact (Hb _ _ _ Hs Hh1).
    + apply lookup_insert_Some in H1 as [[-> <-] | [Hn1' H1]]; [discriminate|].
      exact (Hb _ _ _ H1 Hh1).
Qed.

Lemma owners_ok_swap m nh a b ta tb :
  owners_ok m nh -> m !! a = Some ta -> m !! b = Some tb ->
  owners_ok (<[a := tb]> (<[b := ta]> m)) nh.
Proof.
  intros [Hu Hb] Ha Hbb. split.
  - intros o1 o2 t1 t2 h H1 H2 Hh1 Hh2.
    apply lookup_insert_Some in H1 as [[-> <-] | [Hn1 H1]];
      apply lookup_insert_Some in H2 as [[-> <-] | [Hn2 H2]].
    + reflexivity.
    + apply lookup_insert_Some in H2 as [[-> <-] | [Hn2' H2]].
      * pose proof (Hu _ _ _ _ _ Hbb Ha Hh1 Hh2). congruence.
      * pose proof (Hu _ _ _ _ _ Hbb H2 Hh1 Hh2). congruence.
    + apply lookup_insert_Some in H1 as [[-> <-] | [Hn1' H1]].
      * pose proof (Hu _ _ _ _ _ Ha Hbb Hh1 Hh2). congruence.
      * pose proof (Hu _ _ _ _ _ H1 Hbb Hh1 Hh2). congruence.
    + apply lookup_insert_Some in H1 as [[-> <-] | [Hn1' H1]];
        apply lookup_insert_Some in H2 as [[-> <-] | [Hn2' H2]].
      * reflexivity.
      * pose proof (Hu _ _ _ _ _ Ha H2 Hh1 Hh2). congruence.
      * pose proof (Hu _ _ _ _ _ H1 Ha Hh1 Hh2). congruence.
      * exact (Hu _ _ _ _ _ H1 H2 Hh1 Hh2).
  - intros o1 t1 h H1 Hh1.
    apply lookup_insert_Some in H1 as [[-> <-] | [Hn1 H1]].
    + exact (Hb _ _ _ Hbb Hh1).
    + apply lookup_insert_Some in H1 as [[-> <-] | [Hn1' H1]].
      * exact (Hb _ _ _ Ha Hh1).
      * exact (Hb _ _ _ H1 Hh1).
Qed.

Lemma join_well_formed o w r :
  well_formed w -> join o w = r ->
  match r with
  | Done w' | Blocked _ w' => well_formed w'
  | _ => True
  end.
Proof.
  intros Hw <-. unfold join. destruct (objects w !! o) as [t|]; [|exact I].
  destruct (handle t) as [h|]; [|exact I].
  destruct (completed h _).
  - apply well_formed_owners. simpl. rewrite objects_request_stop.
    replace (next_handle (source_request_stop (ssource t) w)) with (next_handle w)
      by (destruct (ssource t); reflexivity).
    apply owners_ok_release; [exact Hw | reflexivity].
  - apply well_formed_owners. rewrite objects_request_stop.
    replace (next_handle (source_request_stop (ssource t) w)) with (next_handle w)
      by (destruct (ssource t); reflexivity).
    exact Hw.
Qed.

Lemma run_well_formed h w : well_formed w -> well_formed (run h w).
Proof. intros Hw. exact Hw. Qed.

(** No operation of the interface makes two objects own one thread of
    execution, whether it is done or left waiting. *)
Lemma perform_well_formed op w :
  well_formed w ->
  match perform op w with
  | Done w' | Blocked _ w' => well_formed w'
  | _ => True
  end.
Proof.
  intros Hw. destruct op as [o|o f|dst src|dst src|a b|o|o|o|o]; simpl.
  - unfold default_construct. destruct (objects w !! o); [exact I|].
    apply well_formed_owners. simpl. apply owners_ok_release; [exact Hw | reflexivity].
  - unfold construct. destruct (objects w !! o); [exact I|].
    apply well_formed_owners. simpl. apply owners_ok_fresh. exact Hw.
  - unfold move_construct.
    destruct (objects w !! dst) eqn:Hd; [exact I|].
    destruct (objects w !! src) as [ts|] eqn:Hs; [|exact I].
    apply well_formed_owners. simpl. apply owners_ok_transfer; [exact Hw | exact Hs|].
    intros ->. congruence.
  - unfold move_assign.
    destruct (objects w !! dst) as [td|] eqn:Hd; [|exact I].
    destruct (objects w !! src) as [ts|] eqn:Hs; [|exact I].
    destruct (decide (dst = src)) as [|Hne]; [exact Hw|].
    destruct (joinable td) eqn:Hj.
    + unfold and_then. pose proof (join_well_formed dst w _ Hw eq_refl) as Hjw.
      destruct (join dst w) as [w'|h w1| | |] eqn:Hjoin; try exact I; [|exact Hjw].
      apply well_formed_owners. simpl.
      apply owners_ok_transfer; [exact Hjw | | exact Hne].
      unfold join in Hjoin. rewrite Hd in Hjoin.
      destruct (handle td) as [h|]; [|discriminate].
      destruct (completed h _); [|discriminate].
      injection Hjoin as <-. simpl.
      rewrite lookup_insert_ne by exact Hne.
      rewrite objects_request_stop. exact Hs.
    + apply well_formed_owners. simpl.
      apply owners_ok_transfer; [exact Hw | exact Hs | exact Hne].
  - unfold swap.
    destruct (objects w !! a) as [ta|] eqn:Ha; [|exact I].
    destruct (objects w !! b) as [tb|] eqn:Hb; [|exact I].
    apply well_formed_owners. simpl. apply owners_ok_swap; [exact Hw | exact Ha | exact Hb].
  - apply (join_well_formed o w _ Hw eq_refl).
  - unfold detach. destruct (objects w !! o) as [t|]; [|exact I].
    destruct (handle t); [|exact I].
    apply well_formed_owners. simpl. apply owners_ok_release; [exact Hw | reflexivity].
  - unfold request_stop. destruct (objects w !! o) as [t|]; [|exact I].
    apply well_formed_owners. rewrite objects_request_stop.
    replace (next_handle (source_request_stop (ssource t) w)) with (next_handle w)
      by (destruct (ssource t); reflexivity).
    exact Hw.
  - unfold destroy. destruct (objects w !! o) as [t|]; [|exact I].
    destruct (joinable t).
    + unfold and_then. pose proof (join_well_formed o w _ Hw eq_refl) as Hjw.
      destruct (join o w) as [w'|h w1| | |]; try exact I; [|exact Hjw].
      apply well_formed_owners. simpl. apply owners_ok_delete. exact Hjw.
    + apply well_formed_owners. simpl. apply owners_ok_delete. exact Hw.
Qed.

Lemma initial_well_formed : well_formed initial.
Proof.
  split.
  - intros o1 o2 t1 t2 h H1. unfold initial in H1. cbn [objects] in H1.
    rewrite lookup_empty in H1. discriminate.
  - intros o t h H1. unfold initial in H1. cbn [objects] in H1.
    rewrite lookup_empty in H1. discriminate.
Qed.

(** C2.  Moving from a joinable object [src] into another object [dst],
    by construction or by assignment, leaves [src] not joinable with the
    default id and [dst] joinable with the id [src] had.  Move
    construction is done at once; move assignment is done at once into a
    target that is not joinable, and into a joinable one as soon as the
    thread of execution the target owned has taken the steps it has
    left.  No operation of the interface lets two objects own one thread
    of execution: a handle is never copied. *)
Theorem move_transfers_ownership (GetThreadId : Z -> Z) (p : platform)
    (src dst : nat) (t : Thread) (w : world) :
  objects w !! src = Some t ->
  joinable t = true ->
  dst <> src ->
  (objects w !! dst = None ->
     exists w', move_construct dst src w = Done w'
                /\ moved GetThreadId p t dst src w')
  /\ (forall told, objects w !! dst = Some told ->
        (forall n w', await n (move_assign dst src) w = Done w' ->
           moved GetThreadId p t dst src w')
        /\ (joinable told = false -> exists w', move_assign dst src w = Done w')
        /\ (forall h e n, handle told = Some h -> ssource told = Some h ->
              threads w !! h = Some e -> remaining (state e) = Some n ->
              exists w', await n (move_assign dst src) w = Done w'))
  /\ (well_formed w ->
      forall op w', perform op w = Done w' -> well_formed w').
Proof.
  intros Hs Hj Hne. split; [|split].
  - intros Hd. unfold move_construct. rewrite Hd, Hs.
    eexists. split; [reflexivity|]. apply transfer_moved; assumption.
  - intros told Hd. split; [|split].
    + intros n w' Hdone. destruct (joinable told) eqn:Hjt.
      * rewrite (await_move_assign dst src told t w n Hd Hs Hne Hjt) in Hdone.
        unfold and_then in Hdone.
        destruct (await n (join dst) w); try discriminate.
        injection Hdone as <-. apply transfer_moved; assumption.
      * assert (Hnow : move_assign dst src w = Done (transfer dst src t w)).
        { rewrite (move_assign_distinct dst src told t w Hd Hs Hne), Hjt.
          reflexivity. }
        destruct n; simpl in Hdone; rewrite Hnow in Hdone;
          injection Hdone as <-; apply transfer_moved; assumption.
    + intros Hjt. rewrite (move_assign_distinct dst src told t w Hd Hs Hne), Hjt.
      eexists. reflexivity.
    + intros h e n Hh Hss Hl Hrem.
      assert (Hjt : joinable told = true) by (unfold joinable; rewrite Hh; reflexivity).
      destruct (await_join dst told h n w e Hd Hh Hss Hl Hrem) as [w' [Hw' _]].
      rewrite (await_move_assign dst src told t w n Hd Hs Hne Hjt).
      unfold and_then. rewrite Hw'. eexists. reflexivity.
  - intros Hw op w' Hop. pose proof (perform_well_formed op w Hw) as H.
    rewrite Hop in H. exact H.
Qed.


(** *** The tests' scenarios *)

(** [Thread.Move]: after [t1 = std::move(t2)] the source is not joinable
    and the target has the id of the source; the thread [t1] owned has
    completed by then. *)
Example thread_move_assignment :
  match await 1 (move_assign 0 1) move_world with
  | Done w =>
      joinable <$> objects w !! 1%nat = Some false
      /\ joinable <$> objects w !! 0%nat = Some true
      /\ get_id (fun h => h) Linux <$> objects w !! 0%nat = Some (ThreadId.mk_id 2)
      /\ completed 1 w = true
  | _ => False
  end.
Proof. vm_compute. repeat split. Qed.

(** [Thread.StopToken]: the second thread is joined without an explicit
    request; [join] asks the loop to stop and returns after its next
    step. *)
Example stop_token_join :
  join 0 stop_token_world
  = Blocked 1 (source_request_stop (Some 1) stop_token_world)
  /\ exists w, await 1 (join 0) stop_token_world = Done w /\ completed 1 w = true.
Proof.
  split; [reflexivity|].
  destruct (await_join 0 (mk_Thread (Some 1) (Some 1)) 1 1 stop_token_world
              (mk_execution (Running Cooperative) false))
    as [w [Hw [Hc _]]]; try reflexivity.
  exists w. split; assumption.
Qed.

Lemma request_stop_ends_cooperative_loop_witness :
  request_stop 0 stop_token_world
  = Done (source_request_stop (Some 1) stop_token_world)
  /\ stop_requested (Some 1) (source_request_stop (Some 1) stop_token_world) = true
  /\ completed 1 (run 1 (source_request_stop (Some 1) stop_token_world)) = true
  /\ joinable (mk_Thread (Some 1) (Some 1)) = true.
Proof.
  destruct (request_stop_ends_cooperative_loop 0 (mk_Thread (Some 1) (Some 1)) 1
              (mk_execution (Running Cooperative) false) stop_token_world)
    as [Hreq [Htok [Hdone [_ [_ Hj]]]]]; try reflexivity.
  split; [exact Hreq|]. split; [exact (Htok O)|].
  split; [exact (Hdone O) | exact Hj].
Defined.

Lemma destructor_joins_witness :
  std_thread_destroy 0 stop_token_world = Terminated
  /\ exists w', await 1 (destroy 0) stop_token_world = Done w'.
Proof.
  destruct (destructor_joins 0 (mk_Thread (Some 1) (Some 1)) stop_token_world)
    as [_ H]; [reflexivity|].
  destruct H as [Hstd [_ [_ [Hlive _]]]]; [reflexivity|].
  split; [exact Hstd|].
  apply (Hlive 1 (mk_execution (Running Cooperative) false) 1%nat); reflexivity.
Defined.

Lemma move_transfers_ownership_witness :
  (exists w', move_construct 2 1 move_world = Done w'
              /\ moved (fun h => h) Linux (mk_Thread (Some 2) (Some 2)) 2 1 w')
  /\ (exists w', await 1 (move_assign 0 1) move_world = Done w'
                 /\ moved (fun h => h) Linux (mk_Thread (Some 2) (Some 2)) 0 1 w').
Proof.
  split.
  - destruct (move_transfers_ownership (fun h => h) Linux 1 2
                (mk_Thread (Some 2) (Some 2)) move_world)
      as [Hc _]; [reflexivity | reflexivity | lia |].
    apply Hc. reflexivity.
  - destruct (move_transfers_ownership (fun h => h) Linux 1 0
                (mk_Thread (Some 2) (Some 2)) move_world)
      as [_ [Ha _]]; [reflexivity | reflexivity | lia |].
    destruct (Ha (mk_Thread (Some 1) (Some 1))) as [Hpost [_ Hlive]]; [reflexivity|].
    destruct (Hlive 1 (mk_execution (Running (Returns 0)) false) 1%nat)
      as [w' Hw']; try reflexivity.
    exists w'. split; [exact Hw' | exact (Hpost 1%nat w' Hw')].
Defined.

End LifecycleFacts.

(** * Further properties *)

(** ** More on the sleep helpers *)

Module SleepEdgeFacts.
Import OS this_thread.

(** X1.  Over the whole range of [ms_type] neither body of [sleep] throws:
    both guards are dead.  Each body makes exactly one call, [Sleep] with
    the count on Windows and [nanosleep] on Linux, and leaves the rest of
    the operating system as it was. *)
Theorem sleep_guards_are_dead (p : platform) (ms : Z) (st : os_state) :
  is_ms_type ms ->
  (sleep p ms st).1 = Ok tt
  /\ calls (sleep p ms st).2
     = calls st ++ [match p with
                    | Windows => Sleep ms
                    | Linux => nanosleep (ms / 1000) ((ms mod 1000000) * 1000)
                    end]
  /\ thread_name (sleep p ms st).2 = thread_name st
  /\ thread_priority (sleep p ms st).2 = thread_priority st.
Proof.
  intros H. destruct p.
  - rewrite (SleepFacts.sleep_windows ms st H). repeat split.
  - rewrite (SleepFacts.sleep_linux ms st H). repeat split.
Qed.

Lemma sleep_guards_are_dead_witness :
  (sleep Linux 10 (mk_os_state [] 0 0 [])).1 = Ok tt
  /\ calls (sleep Linux 10 (mk_os_state [] 0 0 [])).2 = [] ++ [nanosleep 0 10000]
  /\ thread_name (sleep Linux 10 (mk_os_state [] 0 0 [])).2 = []
  /\ thread_priority (sleep Linux 10 (mk_os_state [] 0 0 [])).2 = 0.
Proof.
  apply (sleep_guards_are_dead Linux 10 (mk_os_state [] 0 0 [])).
  unfold is_ms_type, UINT32_MAX. lia.
Defined.

(** X2.  What the Linux body asks [nanosleep] for.  The [timespec] is
    always a valid one (both fields non-negative, nanoseconds below a
    second) and its seconds are the whole seconds of [ms_sleep]; but the
    time it stands for is [ms_sleep] milliseconds only when [ms_sleep] is
    a multiple of a million, it is off by less than a second otherwise,
    and below a second it is a thousandth of what was asked. *)
Theorem sleep_linux_request (ms : Z) (st : os_state) :
  is_ms_type ms ->
  exists tv_sec tv_nsec,
    sleep Linux ms st = (Ok tt, log (nanosleep tv_sec tv_nsec) st)
    /\ tv_sec = ms / 1000
    /\ 0 <= tv_sec
    /\ 0 <= tv_nsec < 1000000000
    /\ (timespec_ns tv_sec tv_nsec = ms * 1000000 <-> ms mod 1000000 = 0)
    /\ Z.abs (timespec_ns tv_sec tv_nsec - ms * 1000000) < 1000000000
    /\ (ms < 1000 -> timespec_ns tv_sec tv_nsec = ms * 1000).
Proof.
  intros H. exists (ms / 1000), ((ms mod 1000000) * 1000).
  split; [apply (SleepFacts.sleep_linux ms st H)|].
  unfold is_ms_type, UINT32_MAX in H. unfold timespec_ns.
  pose proof (Z.div_mod ms 1000 ltac:(lia)) as D1.
  pose proof (Z.mod_pos_bound ms 1000 ltac:(lia)) as B1.
  pose proof (Z.div_mod ms 1000000 ltac:(lia)) as D2.
  pose proof (Z.mod_pos_bound ms 1000000 ltac:(lia)) as B2.
  assert (Hq : 0 <= ms / 1000) by (apply Z.div_pos; lia).
  assert (HQ : 0 <= ms / 1000000) by (apply Z.div_pos; lia).
  split; [reflexivity|]. split; [exact Hq|]. split; [lia|].
  split; [lia|]. split; [lia|].
  intros Hlt. assert (ms / 1000 = 0) by (apply Z.div_small; lia).
  assert (ms mod 1000000 = ms) by (apply Z.mod_small; lia). lia.
Qed.

Lemma sleep_linux_request_witness :
  exists tv_sec tv_nsec,
    sleep Linux 1500 (mk_os_state [] 0 0 [])
    = (Ok tt, log (nanosleep tv_sec tv_nsec) (mk_os_state [] 0 0 []))
    /\ tv_sec = 1500 / 1000
    /\ 0 <= tv_sec
    /\ 0 <= tv_nsec < 1000000000
    /\ (timespec_ns tv_sec tv_nsec = 1500 * 1000000 <-> 1500 mod 1000000 = 0)
    /\ Z.abs (timespec_ns tv_sec tv_nsec - 1500 * 1000000) < 1000000000
    /\ (1500 < 1000 -> timespec_ns tv_sec tv_nsec = 1500 * 1000).
Proof.
  apply (sleep_linux_request 1500 (mk_os_state [] 0 0 [])).
  unfold is_ms_type, UINT32_MAX. lia.
Defined.

Lemma wrap64_id x : in_int64 x -> wrap64 x = x.
Proof.
  unfold in_int64, INT64_MIN, INT64_MAX, wrap64. intros H.
  rewrite Z.mod_small by lia. lia.
Qed.

(** Wrapping around never takes a value further from zero. *)
Lemma wrap64_abs_le x : Z.abs (wrap64 x) <= Z.abs x.
Proof.
  destruct (Z_lt_le_dec (Z.abs x) (2 ^ 63)) as [Hs | Hl].
  - rewrite wrap64_id; [lia|]. unfold in_int64, INT64_MIN, INT64_MAX. lia.
  - unfold wrap64. pose proof (Z.mod_pos_bound (x + 2 ^ 63) (2 ^ 64) ltac:(lia)). lia.
Qed.

(** The scaling factor of [duration_cast] in lowest terms. *)
Lemma cast_factor (d : Chrono.duration) :
  let n := Z.pos (Chrono.num (Chrono.period d)) * 1000 in
  let m := Z.pos (Chrono.den (Chrono.period d)) in
  exists g, 0 < g /\ n = n / Z.gcd n m * g /\ m = m / Z.gcd n m * g
            /\ 0 < n / Z.gcd n m /\ 0 < m / Z.gcd n m.
Proof.
  intros n m. exists (Z.gcd n m).
  assert (Hn : 0 < n) by (unfold n; lia).
  assert (Hm : 0 < m) by (unfold m; lia).
  assert (Hg : 0 < Z.gcd n m).
  { pose proof (Z.gcd_nonneg n m) as Hnn.
    destruct (Z.eq_dec (Z.gcd n m) 0) as [H0 | H0]; [|lia].
    apply Z.gcd_eq_0_r in H0. lia. }
  destruct (Z.gcd_divide_l n m) as [kn Hkn].
  destruct (Z.gcd_divide_r n m) as [km Hkm].
  set (g := Z.gcd n m) in *.
  assert (Hdn : n / g = kn) by (rewrite Hkn at 1; apply Z.div_mul; lia).
  assert (Hdm : m / g = km) by (rewrite Hkm at 1; apply Z.div_mul; lia).
  rewrite Hdn, Hdm. repeat split; try assumption; nia.
Qed.

(** Where the product does not overflow, the cast is the truncated
    quotient, and the reduction to lowest terms does not change it. *)
Lemma duration_cast_ms_quot d :
  in_int64 (Chrono.count d * (Z.pos (Chrono.num (Chrono.period d)) * 1000)) ->
  Chrono.duration_cast_ms d
  = Z.quot (Chrono.count d * (Z.pos (Chrono.num (Chrono.period d)) * 1000))
           (Z.pos (Chrono.den (Chrono.period d))).
Proof.
  intros Hin. unfold Chrono.duration_cast_ms.
  destruct (cast_factor d) as [g [Hg [Hn [Hm [Hkn Hkm]]]]].
  cbv zeta in *.
  set (n := Z.pos (Chrono.num (Chrono.period d)) * 1000) in *.
  set (m := Z.pos (Chrono.den (Chrono.period d))) in *.
  set (kn := n / Z.gcd n m) in *. set (km := m / Z.gcd n m) in *.
  rewrite wrap64_id.
  - rewrite Hn, Hm at 1. rewrite Z.mul_assoc.
    symmetry. apply Z.quot_mul_cancel_r; lia.
  - unfold in_int64, INT64_MIN, INT64_MAX in *. rewrite Hn in Hin. nia.
Qed.

Lemma duration_cast_ms_small d :
  Z.abs (Chrono.count d) * (Z.pos (Chrono.num (Chrono.period d)) * 1000)
    < Z.pos (Chrono.den (Chrono.period d)) ->
  Chrono.duration_cast_ms d = 0.
Proof.
  intros H. unfold Chrono.duration_cast_ms.
  destruct (cast_factor d) as [g [Hg [Hn [Hm [Hkn Hkm]]]]].
  cbv zeta in *.
  set (n := Z.pos (Chrono.num (Chrono.period d)) * 1000) in *.
  set (m := Z.pos (Chrono.den (Chrono.period d))) in *.
  set (kn := n / Z.gcd n m) in *. set (km := m / Z.gcd n m) in *.
  apply Z.quot_small_iff; [lia|].
  pose proof (wrap64_abs_le (Chrono.count d * kn)) as Hw.
  rewrite Z.abs_mul, (Z.abs_eq kn) in Hw by lia.
  rewrite (Z.abs_eq km) by lia.
  rewrite Hn, Hm in H. nia.
Qed.

Lemma duration_cast_ms_past d :
  in_int64 (Chrono.count d * (Z.pos (Chrono.num (Chrono.period d)) * 1000)) ->
  - Chrono.count d * (Z.pos (Chrono.num (Chrono.period d)) * 1000)
    >= Z.pos (Chrono.den (Chrono.period d)) ->
  Chrono.duration_cast_ms d < 0.
Proof.
  intros Hin H. rewrite (duration_cast_ms_quot d Hin).
  set (x := Chrono.count d * (Z.pos (Chrono.num (Chrono.period d)) * 1000)) in *.
  set (m := Z.pos (Chrono.den (Chrono.period d))) in *.
  assert (Hm : 0 < m) by (unfold m; lia).
  replace x with (- (- x)) by lia. rewrite Z.quot_opp_l by lia.
  assert (1 <= Z.quot (- x) m); [|lia].
  rewrite Z.quot_div_nonneg by lia.
  apply Z.div_le_lower_bound; lia.
Qed.

(** X3.  A duration shorter than a millisecond, a negative one included,
    truncates to zero: [sleep_for] then throws nothing and is [sleep(0)],
    one call of the operating system. *)
Theorem sleep_for_below_a_millisecond (p : platform) (d : Chrono.duration)
    (st : os_state) :
  Z.abs (Chrono.count d) * (Z.pos (Chrono.num (Chrono.period d)) * 1000)
    < Z.pos (Chrono.den (Chrono.period d)) ->
  sleep_for p d st = sleep p 0 st
  /\ (sleep_for p d st).1 = Ok tt
  /\ calls (sleep_for p d st).2
     = calls st ++ [match p with Windows => Sleep 0 | Linux => nanosleep 0 0 end].
Proof.
  intros H. pose proof (duration_cast_ms_small d H) as H0.
  assert (Hr : is_ms_type (Chrono.duration_cast_ms d))
    by (rewrite H0; unfold is_ms_type, UINT32_MAX; lia).
  rewrite (SleepFacts.sleep_for_in_range p d st Hr), H0.
  split; [reflexivity|]. destruct p; repeat split.
Qed.

Lemma sleep_for_below_a_millisecond_witness :
  sleep_for Linux (Chrono.mk_duration (-500) (Chrono.mk_ratio 1 1000000))
            (mk_os_state [] 0 0 [])
  = sleep Linux 0 (mk_os_state [] 0 0 [])
  /\ (sleep_for Linux (Chrono.mk_duration (-500) (Chrono.mk_ratio 1 1000000))
                (mk_os_state [] 0 0 [])).1 = Ok tt
  /\ calls (sleep_for Linux (Chrono.mk_duration (-500) (Chrono.mk_ratio 1 1000000))
                      (mk_os_state [] 0 0 [])).2
     = [] ++ [nanosleep 0 0].
Proof.
  apply (sleep_for_below_a_millisecond Linux
           (Chrono.mk_duration (-500) (Chrono.mk_ratio 1 1000000))
           (mk_os_state [] 0 0 [])).
  simpl. lia.
Defined.

(** Two time points of one period differ by the difference of their
    counts, where that difference is representable. *)
Lemma time_point_sub_same_period a b r :
  in_int64 a -> in_int64 b -> in_int64 (a - b) ->
  Chrono.time_point_sub
    (Chrono.mk_time_point (Chrono.mk_duration a r))
    (Chrono.mk_time_point (Chrono.mk_duration b r))
  = Chrono.mk_duration (a - b) r.
Proof.
  intros Ha Hb Hab.
  unfold Chrono.time_point_sub, Chrono.sub, Chrono.common_period, Chrono.to_period.
  cbn [Chrono.time_since_epoch Chrono.period Chrono.count Chrono.num Chrono.den].
  rewrite Z.gcd_diag, Z.lcm_diag. destruct r as [n m].
  cbn [Chrono.num Chrono.den Z.abs Z.to_pos].
  rewrite Z.div_same by lia. rewrite !Z.mul_1_r.
  rewrite (wrap64_id a Ha), (wrap64_id b Hb), (wrap64_id _ Hab). reflexivity.
Qed.

(** X4.  For a deadline and a clock reading whose distance is
    representable: a deadline that lies a millisecond or more in the past
    (the scaling to milliseconds not overflowing) makes [sleep_until]
    throw [invalid_argument] without any call of the operating system; a
    deadline less than a millisecond away on either side, the present
    moment included, is [sleep(0)]. *)
Theorem sleep_until_deadline (p : platform) (C : Chrono.Clock)
    (r : Chrono.ratio) (deadline reading : Z) (st : os_state) :
  Chrono.now C st = Chrono.mk_time_point (Chrono.mk_duration reading r) ->
  in_int64 deadline ->
  in_int64 reading ->
  in_int64 (deadline - reading) ->
  (in_int64 ((deadline - reading) * (Z.pos (Chrono.num r) * 1000)) ->
   (reading - deadline) * (Z.pos (Chrono.num r) * 1000) >= Z.pos (Chrono.den r) ->
     throws_invalid_argument
       (sleep_until p C (Chrono.mk_time_point (Chrono.mk_duration deadline r)) st).1
     /\ (sleep_until p C (Chrono.mk_time_point (Chrono.mk_duration deadline r)) st).2
        = st)
  /\ (Z.abs (deadline - reading) * (Z.pos (Chrono.num r) * 1000) < Z.pos (Chrono.den r) ->
        sleep_until p C (Chrono.mk_time_point (Chrono.mk_duration deadline r)) st
        = sleep p 0 st).
Proof.
  intros Hnow Hd Hr Hdr. unfold sleep_until.
  rewrite Hnow, (time_point_sub_same_period deadline reading r Hd Hr Hdr).
  split.
  - intros Hin H. rewrite SleepFacts.sleep_for_out_of_range.
    + simpl. split; [eexists; reflexivity | reflexivity].
    + left. apply duration_cast_ms_past; simpl; [exact Hin | lia].
  - intros H.
    assert (H0 : Chrono.duration_cast_ms (Chrono.mk_duration (deadline - reading) r) = 0)
      by (apply duration_cast_ms_small; exact H).
    rewrite SleepFacts.sleep_for_in_range; rewrite H0;
      [reflexivity | unfold is_ms_type, UINT32_MAX; lia].
Qed.

Lemma sleep_until_deadline_witness :
  throws_invalid_argument
    (sleep_until Linux
       (Chrono.mk_Clock (fun _ =>
          Chrono.mk_time_point (Chrono.mk_duration 5000 Chrono.milli)))
       (Chrono.mk_time_point (Chrono.mk_duration 4000 Chrono.milli))
       (mk_os_state [] 0 0 [])).1.
Proof.
  destruct (sleep_until_deadline Linux
              (Chrono.mk_Clock (fun _ =>
                 Chrono.mk_time_point (Chrono.mk_duration 5000 Chrono.milli)))
              Chrono.milli 4000 5000 (mk_os_state [] 0 0 []))
    as [Hpast _]; [reflexivity | | | |];
    try (unfold in_int64, INT64_MIN, INT64_MAX; lia).
  apply Hpast; simpl; [unfold in_int64, INT64_MIN, INT64_MAX|]; lia.
Defined.

Lemma duration_cast_ms_seconds n :
  in_int64 (1000 * n) -> Chrono.duration_cast_ms (Chrono.seconds n) = 1000 * n.
Proof.
  intros H. rewrite duration_cast_ms_quot.
  - simpl. rewrite Z.quot_1_r. lia.
  - unfold in_int64 in *. simpl. lia.
Qed.

(** X13.  For a duration in whole seconds whose count of milliseconds is
    representable, [sleep_for] reaches up to 4294967 seconds, a little
    under fifty days: up to there it is [sleep] of a thousand times the
    count, beyond it and below zero it throws [invalid_argument] without
    any call of the operating system. *)
Theorem sleep_for_whole_seconds (p : platform) (n : Z) (st : os_state) :
  in_int64 (1000 * n) ->
  (0 <= n <= 4294967 ->
     sleep_for p (Chrono.seconds n) st = sleep p (1000 * n) st
     /\ (sleep_for p (Chrono.seconds n) st).1 = Ok tt)
  /\ (n < 0 \/ 4294967 < n ->
        throws_invalid_argument (sleep_for p (Chrono.seconds n) st).1
        /\ (sleep_for p (Chrono.seconds n) st).2 = st).
Proof.
  intros Hin. pose proof (duration_cast_ms_seconds n Hin) as Hcast.
  split; intros H.
  - assert (Hr : is_ms_type (Chrono.duration_cast_ms (Chrono.seconds n)))
      by (rewrite Hcast; unfold is_ms_type, UINT32_MAX; lia).
    rewrite (SleepFacts.sleep_for_in_range p _ st Hr), Hcast.
    split; [reflexivity|].
    rewrite Hcast in Hr.
    destruct (SleepFacts.sleep_ok p _ st Hr) as [c ->]. reflexivity.
  - rewrite SleepFacts.sleep_for_out_of_range.
    + simpl. split; [eexists; reflexivity | reflexivity].
    + rewrite Hcast. unfold UINT32_MAX. lia.
Qed.

Lemma sleep_for_whole_seconds_witness :
  (0 <= 1 <= 4294967 ->
     sleep_for Linux (Chrono.seconds 1) (mk_os_state [] 0 0 [])
     = sleep Linux (1000 * 1) (mk_os_state [] 0 0 [])
     /\ (sleep_for Linux (Chrono.seconds 1) (mk_os_state [] 0 0 [])).1 = Ok tt)
  /\ (1 < 0 \/ 4294967 < 1 ->
        throws_invalid_argument
          (sleep_for Linux (Chrono.seconds 1) (mk_os_state [] 0 0 [])).1
        /\ (sleep_for Linux (Chrono.seconds 1) (mk_os_state [] 0 0 [])).2
           = mk_os_state [] 0 0 []).
Proof.
  apply (sleep_for_whole_seconds Linux 1 (mk_os_state [] 0 0 [])).
  unfold in_int64, INT64_MIN, INT64_MAX. lia.
Defined.

(** Beyond that range the product overflows: a count of seconds whose
    thousandfold exceeds 64 bits by 384 passes the guard as 384
    milliseconds. *)
Example sleep_for_overflow st :
  sleep_for Linux (Chrono.seconds 18446744073709552) st
  = (Ok tt, log (nanosleep 0 384000) st).
Proof. reflexivity. Qed.

End SleepEdgeFacts.

(** ** More on the thread name on Linux *)

Module NameEdgeFacts.
Import OS this_thread.

(** X5.  On Linux, after [set_name] of a name of at most 15 characters
    [get_name] returns that name up to its first NUL, so the name itself
    when it holds none; after a [set_name] that throws, [get_name] returns
    what it returned before. *)
Theorem set_name_get_name (name : list ascii) (st : os_state) :
  ((length name <= 15)%nat ->
     (get_name (set_name name st).2).1 = Ok (c_str name)
     /\ (Ascii.zero ∉ name -> (get_name (set_name name st).2).1 = Ok name))
  /\ ((15 < length name)%nat ->
        throws_invalid_argument (set_name name st).1
        /\ (get_name (set_name name st).2).1 = (get_name st).1).
Proof.
  split; intros H.
  - assert (Hget : (get_name (set_name name st).2).1 = Ok (c_str name)).
    { rewrite (NameFacts.set_name_fits name st H). simpl.
      unfold rename. pose proof (NameFacts.c_str_length name) as Hl.
      destruct (Nat.leb_spec (length (c_str name)) 15); [reflexivity | lia]. }
    split; [exact Hget|]. intros Hnul.
    rewrite Hget, (NameFacts.c_str_no_nul name Hnul). reflexivity.
  - rewrite (NameFacts.set_name_too_long name st H). simpl.
    split; [eexists; reflexivity | reflexivity].
Qed.

(** The size test counts the characters behind an embedded NUL, which the
    operating system would never see. *)
Example set_name_counts_past_nul :
  let name := "a"%char :: Ascii.zero :: list_ascii_of_string "0123456789abcdef" in
  c_str name = ["a"%char]
  /\ throws_invalid_argument (set_name name (mk_os_state [] 0 0 [])).1.
Proof. split; [reflexivity | eexists; reflexivity]. Qed.

End NameEdgeFacts.

(** ** More on the thread priority on Windows *)

Module PriorityEdgeFacts.
Import OS this_thread.

(** X6.  When the eight macros are distinct, as the labels of a [switch]
    have to be, [get_priority] inverts the enumeration: if the operating
    system reports the native value of a level, that level is returned. *)
Theorem get_priority_inverts_enumeration (W : priority_macros)
    (e : Thread.Priority) (st : os_state) :
  NoDup (labels W) ->
  thread_priority st = priority_value W e ->
  (get_priority W st).1 = Ok e.
Proof.
  intros Hnd Hp. rewrite PriorityFacts.get_priority_select, Hp.
  unfold labels in Hnd.
  repeat (apply NoDup_cons in Hnd as [?Hn Hnd]).
  repeat match goal with
         | H : _ ∉ _ :: _ |- _ => apply not_elem_of_cons in H as [? H]
         end.
  unfold select.
  destruct e; simpl;
    repeat match goal with
           | |- context [if ?x =? ?y then _ else _] =>
               destruct (Z.eqb_spec x y); [try reflexivity; congruence|]
           end;
    congruence.
Qed.

Lemma get_priority_inverts_enumeration_witness :
  (get_priority winbase (mk_os_state [] (-1) 0 [])).1 = Ok Thread.LOW.
Proof.
  apply (get_priority_inverts_enumeration winbase Thread.LOW
           (mk_os_state [] (-1) 0 [])).
  - apply (bool_decide_unpack _). vm_compute. exact I.
  - reflexivity.
Defined.

(** X7.  With the values of the Windows SDK, [get_priority] keeps the
    order of the native priorities: of two answers of the operating
    system, neither the error value, the lower one never yields the
    higher level. *)
Theorem get_priority_monotone (st1 st2 : os_state) (e1 e2 : Thread.Priority) :
  (get_priority winbase st1).1 = Ok e1 ->
  (get_priority winbase st2).1 = Ok e2 ->
  thread_priority st1 <= thread_priority st2 ->
  priority_value winbase e1 <= priority_value winbase e2.
Proof.
  rewrite !PriorityFacts.get_priority_select.
  generalize (thread_priority st1) (thread_priority st2). intros p q.
  unfold select, winbase; simpl.
  repeat match goal with
         | |- context [if ?x =? ?y then _ else _] =>
             destruct (Z.eqb_spec x y)
         | |- context [if ?x <? ?y then _ else _] =>
             destruct (Z.ltb_spec x y)
         end;
    intros H1 H2 Hle; try discriminate;
    injection H1 as <-; injection H2 as <-; simpl; lia.
Qed.

Lemma get_priority_monotone_witness :
  priority_value winbase Thread.IDLE <= priority_value winbase Thread.HIGHEST.
Proof.
  apply (get_priority_monotone (mk_os_state [] (-7) 0 []) (mk_os_state [] 2 0 [])
           Thread.IDLE Thread.HIGHEST).
  - reflexivity.
  - reflexivity.
  - simpl. lia.
Defined.

End PriorityEdgeFacts.

(** ** More on wide and narrow strings *)

Module WideEdgeFacts.
Import OS this_thread.

Section Locale.
Variable L : locale.

(** [mbstowcs] never produces a null wide character before the
    terminator: it stops there. *)
Lemma mbs_decode_nonzero s : forall k ws,
  mbs_decode L k s = Some ws -> Forall (fun w => w <> 0) ws.
Proof.
  induction s as [|c s IH]; intros k ws H; simpl in H.
  - destruct k; [|discriminate]. injection H as <-. constructor.
  - destruct k as [|k]; [|exact (IH k ws H)].
    destruct (mbtowc L (c :: s)) as [[w j]|]; [|discriminate].
    destruct (Z.eqb_spec w 0) as [_ | Hw]; [injection H as <-; constructor|].
    destruct (mbs_decode L j s) as [ws'|] eqn:Hrec; [|discriminate].
    injection H as <-. constructor; [exact Hw | exact (IH j ws' Hrec)].
Qed.

Lemma string_of_terminated_c_str (s : list ascii) :
  string_of (s ++ [Ascii.zero]) = Some (c_str s).
Proof.
  induction s as [|c s IH]; [reflexivity|].
  simpl. destruct (Ascii.eqb c Ascii.zero); [reflexivity|].
  rewrite IH. reflexivity.
Qed.

Lemma wcstombs_write_nothing ws : wcstombs_write L ws 0 = [].
Proof.
  induction ws as [|w ws IH]; simpl; [reflexivity|].
  destruct (w =? 0); [reflexivity|].
  destruct (wctomb L w) as [bs|]; [|reflexivity].
  destruct bs as [|b bs]; simpl; [exact IH | reflexivity].
Qed.

Lemma c_str_idempotent (s : list ascii) : c_str (c_str s) = c_str s.
Proof.
  induction s as [|c s IH]; [reflexivity|].
  simpl. destruct (Ascii.eqb c Ascii.zero) eqn:Hc; [reflexivity|].
  simpl. rewrite Hc, IH. reflexivity.
Qed.

Lemma c_str_nul_free (s : list ascii) : Ascii.zero ∉ c_str s.
Proof.
  induction s as [|c s IH]; simpl; [apply not_elem_of_nil|].
  destruct (Ascii.eqb_spec c Ascii.zero) as [-> | Hc]; [apply not_elem_of_nil|].
  apply not_elem_of_cons. split; [congruence | exact IH].
Qed.

End Locale.

(** X8.  The two passes of [to_wide] size the buffer exactly: the result
    is what [mbstowcs] decodes from [name.c_str()], all of it and nothing
    else, so whatever follows a first NUL in [name] is ignored; and when
    the decoding fails, the length [(size_t)-1 + 1] is zero and the string
    is read from a buffer of no elements, which is undefined. *)
Theorem to_wide_is_the_decoding (L : locale) (name : list ascii) :
  to_wide L name = mbs_decode L 0 (c_str name)
  /\ to_wide L name = to_wide L (c_str name)
  /\ (mbstowcs_count L (c_str name) = None ->
      mbstowcs_write L (c_str name) (plus_one (mbstowcs_count L (c_str name))) = []
      /\ to_wide L name = None).
Proof.
  assert (Hmain : forall s, to_wide L s = mbs_decode L 0 (c_str s)).
  { intros s. destruct (mbs_decode L 0 (c_str s)) as [ws|] eqn:Hdec.
    - apply WideFacts.to_wide_decoded; [exact Hdec|].
      exact (mbs_decode_nonzero L _ _ _ Hdec).
    - unfold to_wide, mbstowcs_count, mbstowcs_write. rewrite Hdec. reflexivity. }
  split; [apply Hmain|]. split.
  - rewrite !Hmain, c_str_idempotent. reflexivity.
  - intros Hnone. unfold mbstowcs_count in Hnone.
    destruct (mbs_decode L 0 (c_str name)) as [ws|] eqn:Hdec; [discriminate|].
    split.
    + unfold mbstowcs_write. rewrite Hdec. reflexivity.
    + rewrite Hmain. exact Hdec.
Qed.

(** X9.  Likewise [from_wide] returns the bytes [wcstombs] encodes the wide
    string to, up to a first NUL among them, and is undefined, reading a
    buffer of no elements, exactly when a wide character has no encoding
    in the locale. *)
Theorem from_wide_is_the_encoding (L : locale) (wname : list Z) :
  from_wide L wname
  = match wcs_encode L wname with
    | Some bs => Some (c_str bs)
    | None => None
    end
  /\ (from_wide L wname = None <-> wcs_encode L wname = None).
Proof.
  assert (Hmain : from_wide L wname
                  = match wcs_encode L wname with
                    | Some bs => Some (c_str bs)
                    | None => None
                    end).
  { unfold from_wide, wcstombs_count.
    destruct (wcs_encode L wname) as [bs|] eqn:Henc; simpl plus_one.
    - rewrite (WideFacts.wcstombs_write_all L wname bs (S (length bs)) Henc) by lia.
      apply string_of_terminated_c_str.
    - rewrite wcstombs_write_nothing. reflexivity. }
  split; [exact Hmain|]. rewrite Hmain.
  destruct (wcs_encode L wname); split; intros H; try discriminate; reflexivity.
Qed.

(** X10.  The round trip the other way: a wide string all of whose
    characters are representable converts to a narrow string that converts
    back to it. *)
Theorem wide_round_trip (L : locale) (wname : list Z) :
  WinName.wide_representable L wname ->
  exists name, from_wide L wname = Some name
               /\ (Ascii.zero ∉ name)
               /\ to_wide L name = Some wname.
Proof.
  intros Hrep.
  assert (Hgen : exists name, wcs_encode L wname = Some name
                              /\ (Ascii.zero ∉ name)
                              /\ mbs_decode L 0 name = Some wname).
  { induction Hrep as [|w ws [Hw [c [bs [Henc [Hnul Hdec]]]]] _ [s [Hs [Hsn Hsd]]]].
    - exists []. repeat split. apply not_elem_of_nil.
    - exists ((c :: bs) ++ s). split; [|split].
      + simpl. destruct (Z.eqb_spec w 0); [contradiction|].
        rewrite Henc, Hs. reflexivity.
      + intros Hin. apply elem_of_app in Hin as [Hin | Hin]; [exact (Hnul Hin) | exact (Hsn Hin)].
      + simpl. rewrite (Hdec s).
        destruct (Z.eqb_spec w 0); [contradiction|].
        rewrite WideFacts.mbs_decode_skip by (rewrite length_app; lia).
        rewrite drop_app_length, Hsd. reflexivity. }
  destruct Hgen as [name [Henc [Hnul Hdec]]]. exists name.
  split; [apply WideFacts.from_wide_encoded; assumption|].
  split; [exact Hnul|].
  apply WideFacts.to_wide_decoded.
  - rewrite NameFacts.c_str_no_nul by exact Hnul. exact Hdec.
  - exact (mbs_decode_nonzero L _ _ _ Hdec).
Qed.

Lemma wide_round_trip_witness :
  exists name, from_wide C_locale [104; 105] = Some name
               /\ (Ascii.zero ∉ name)
               /\ to_wide C_locale name = Some [104; 105].
Proof.
  apply (wide_round_trip C_locale [104; 105]).
  repeat constructor; try discriminate.
  - exists "h"%char, []. split; [reflexivity|]. split; [|intros rest; reflexivity].
    apply (bool_decide_unpack _). vm_compute. exact I.
  - exists "i"%char, []. split; [reflexivity|]. split; [|intros rest; reflexivity].
    apply (bool_decide_unpack _). vm_compute. exact I.
Defined.

End WideEdgeFacts.

(** ** The thread name on Windows *)

Module WinNameFacts.
Import this_thread WinName.

Lemma wc_str_nonzero ws : Forall (fun w => w <> 0) ws -> wc_str ws = ws.
Proof.
  induction 1 as [|w ws Hw _ IH]; [reflexivity|].
  simpl. destruct (Z.eqb_spec w 0); [contradiction|]. rewrite IH. reflexivity.
Qed.

Lemma wc_str_idempotent ws : wc_str (wc_str ws) = wc_str ws.
Proof.
  induction ws as [|w ws IH]; [reflexivity|].
  simpl. destruct (w =? 0) eqn:Hw; [reflexivity|].
  simpl. rewrite Hw, IH. reflexivity.
Qed.

Lemma wcs_encode_wc_str L ws : wcs_encode L (wc_str ws) = wcs_encode L ws.
Proof.
  induction ws as [|w ws IH]; [reflexivity|].
  simpl. destruct (w =? 0) eqn:Hw0; [reflexivity|].
  simpl. rewrite Hw0, IH. reflexivity.
Qed.

Lemma wcstombs_write_wc_str L ws : forall n,
  wcstombs_write L (wc_str ws) n = wcstombs_write L ws n.
Proof.
  induction ws as [|w ws IH]; intros n; [reflexivity|].
  simpl. destruct (w =? 0) eqn:Hw0; [reflexivity|].
  simpl. rewrite Hw0. destruct (wctomb L w) as [bs|]; [|reflexivity].
  destruct (length bs <=? n)%nat; [|reflexivity].
  rewrite IH. reflexivity.
Qed.

(** [from_wide] sees its argument through [c_str()]. *)
Lemma from_wide_wc_str L ws : from_wide L (wc_str ws) = from_wide L ws.
Proof.
  unfold from_wide, wcstombs_count.
  rewrite wcs_encode_wc_str, wcstombs_write_wc_str. reflexivity.
Qed.

(** X12.  On Windows a name of any length, free of NUL and representable
    in the locale, set with [set_name] is the name [get_name] returns;
    nothing is undefined on the way.  [set_name] makes one
    [SetThreadDescription] call; [get_name] queries the description
    twice and frees it twice, converting only the second answer. *)
Theorem win_set_name_get_name (L : locale) (name : list ascii) (st : win_state) :
  representable L name ->
  Ascii.zero ∉ name ->
  exists wname st1 st2,
    to_wide L name = Some wname
    /\ set_name L name st = Some (tt, st1)
    /\ win_calls st1 = win_calls st ++ [GetCurrentThread; SetThreadDescription wname]
    /\ get_name L st1 = Some (name, st2)
    /\ win_calls st2
       = win_calls st1
         ++ [GetCurrentThread; GetThreadDescription; LocalFree;
             GetCurrentThread; GetThreadDescription; LocalFree]
    /\ description st2 = wname.
Proof.
  intros Hrep Hnul. unfold representable in Hrep.
  destruct (WideFacts.decode_encode L (length name) name (le_n _) Hnul Hrep)
    as [ws [Hdec [Hnz Henc]]].
  assert (Hw : to_wide L name = Some ws).
  { apply WideFacts.to_wide_decoded; [|exact Hnz].
    rewrite NameFacts.c_str_no_nul by exact Hnul. exact Hdec. }
  exists ws. eexists. eexists.
  split; [exact Hw|]. unfold set_name. rewrite Hw.
  split; [reflexivity|]. split; [reflexivity|].
  unfold get_name, get_wide_name, set_wide_name. simpl.
  rewrite wc_str_idempotent, (wc_str_nonzero ws Hnz).
  rewrite (WideFacts.from_wide_encoded L ws name Henc Hnul).
  split; [reflexivity|]. split; [|reflexivity].
  rewrite <- app_assoc. reflexivity.
Qed.

Lemma win_set_name_get_name_witness :
  exists wname st1 st2,
    to_wide C_locale (list_ascii_of_string "a_rather_long_thread_name") = Some wname
    /\ set_name C_locale (list_ascii_of_string "a_rather_long_thread_name")
                (mk_win_state [] []) = Some (tt, st1)
    /\ win_calls st1 = [] ++ [GetCurrentThread; SetThreadDescription wname]
    /\ get_name C_locale st1
       = Some (list_ascii_of_string "a_rather_long_thread_name", st2)
    /\ win_calls st2
       = win_calls st1
         ++ [GetCurrentThread; GetThreadDescription; LocalFree;
             GetCurrentThread; GetThreadDescription; LocalFree]
    /\ description st2 = wname.
Proof.
  apply (win_set_name_get_name C_locale
           (list_ascii_of_string "a_rather_long_thread_name") (mk_win_state [] [])).
  - reflexivity.
  - apply (bool_decide_unpack _). vm_compute. exact I.
Defined.

End WinNameFacts.
